(** * The navigation pipeline of the router (router.ts), as a state machine

    The router is written against the JavaScript event loop: [push] runs a
    synchronous prefix ([pushWithRedirect] up to the first promise) and the rest
    is a chain of promise reactions.  Every reaction runs to completion, so the
    embedding cuts one navigation at the places where the source yields to the
    event loop: between two guards of a queue, while a guard is awaited, and
    between the [.catch] and the [.then] handler of [pushWithRedirect].  The
    shared variables of [createRouter] ([currentRoute], [pendingLocation],
    [ready], the callback lists, the matched records) live in one [Router]
    state that every reaction reads and writes.

    Objects compared by reference in the source (route records, resolved
    locations, promises) carry a reference number.

    Covered: [resolve], [push], [replace], [pushWithRedirect], [navigate],
    [runGuardQueue], [extractChangingRecords], [finalizeNavigation],
    [triggerAfterEach], [triggerError], [isReady], [markAsReady],
    [handleScroll], the registration of guards and handlers, and the listener
    on history events; of the histories, the in-memory one (history/memory.ts).
    [go] and the route-table functions are not part of this development.
    User callbacks other than guards ([afterEach] hooks, error handlers,
    redirect functions, [scrollBehavior]) are taken not to throw. *)

From stdpp Require Import gmap strings list fin_maps.

Set Warnings "-register-all,-clear-no-such-hyp".

Open Scope Z_scope.
Open Scope nat_scope.

(** ** Values *)

Abbreviation RecordRef := nat.
Abbreviation LocRef := nat.
Abbreviation PromiseRef := nat.
(** Guards, hooks and handlers are user functions; they are named.  A queue
    holds [guardToPromiseFn(guard, to, from)] for each guard: a thunk that
    returns a promise when called.  navigationGuards.ts is not among the
    sources, so how that promise settles is an input of the machine (see
    [Settlement] and [settle]). *)
Abbreviation Guard := string.
Abbreviation RouteParams := (gmap string (list string)).
Abbreviation LocationQuery := (gmap string (list string)).

Inductive JSValue :=
| VUndefined
| VNull
| VFalse
| VObject (tag : string).

Abbreviation HistoryState := (gmap string JSValue).

(** The object form of a [RouteLocationRaw], with the [RouteLocationOptions].
    A field is [None] when the key is absent.  Only the keys that [resolve]
    and [pushWithRedirect] read are kept. *)
Record LocationObject := {
  o_path : option string;
  o_name : option string;
  o_params : option RouteParams;
  o_query : option LocationQuery;
  o_hash : option string;
  o_state : option HistoryState;
  o_force : option bool;
  o_replace : option bool;
}.

Inductive RouteLocationRaw :=
| RawString (s : string)
| RawObject (o : LocationObject).

(** A resolved location.  [ref] is the identity of the object that [resolve]
    allocated; [matched] is the root-to-leaf chain of record references. *)
Inductive RouteLocation := mkRouteLocation {
  ref : LocRef;
  fullPath : string;
  path : string;
  name : option string;
  params : RouteParams;
  query : LocationQuery;
  hash : string;
  matched : list RecordRef;
  meta : gmap string string;
  href : string;
  redirectedFrom : option RouteLocation;
}.

Definition set_redirectedFrom (l : RouteLocation) (r : option RouteLocation) :=
  mkRouteLocation (ref l) (fullPath l) (path l) (name l) (params l) (query l)
    (hash l) (matched l) (meta l) (href l) r.

(** Modelled from the spec: START_LOCATION_NORMALIZED (types.ts is not among
    the sources), the sentinel "start" location the router is initialised
    with; it matches no record. *)
Definition START_LOCATION_NORMALIZED : RouteLocation :=
  mkRouteLocation 0 "/" "/" None ∅ ∅ "" [] ∅ "/" None.

Inductive ErrorTypes :=
| MATCHER_NOT_FOUND
| NAVIGATION_GUARD_REDIRECT
| NAVIGATION_ABORTED
| NAVIGATION_CANCELLED
| NAVIGATION_DUPLICATED.

Global Instance ErrorTypes_eq_dec : EqDecision ErrorTypes.
Proof. solve_decision. Defined.

(** The values a promise of the pipeline is rejected or resolved with: the
    objects made by [createRouterError], and any other error object.  They
    are objects, so all of them are truthy. *)
Inductive RouterError :=
| PlainError (message : string)
| MatcherError
| NavigationRedirectError (to : RouteLocationRaw)
| NavigationFailure (type : ErrorTypes) (from to : RouteLocation).

(** [error.type] *)
Definition error_type (e : RouterError) : option ErrorTypes :=
  match e with
  | PlainError _ => None
  | MatcherError => Some MATCHER_NOT_FOUND
  | NavigationRedirectError _ => Some NAVIGATION_GUARD_REDIRECT
  | NavigationFailure t _ _ => Some t
  end.

(** ** Route records *)

Inductive GuardType := beforeRouteEnter | beforeRouteUpdate | beforeRouteLeave.

Record Component := {
  c_beforeRouteEnter : option Guard;
  c_beforeRouteUpdate : option Guard;
  c_beforeRouteLeave : option Guard;
}.

Definition component_guard (c : Component) (ty : GuardType) : option Guard :=
  match ty with
  | beforeRouteEnter => c_beforeRouteEnter c
  | beforeRouteUpdate => c_beforeRouteUpdate c
  | beforeRouteLeave => c_beforeRouteLeave c
  end.

Inductive BeforeEnter :=
| NoBeforeEnter
| BeforeEnterFn (g : Guard)
| BeforeEnterArray (gs : list Guard).

Inductive RedirectOption :=
| RedirectTo (target : RouteLocationRaw)
| RedirectFn (f : RouteLocation → RouteLocationRaw).

Record RouteRecordNormalized := {
  components : list (string * Component);
  beforeEnter : BeforeEnter;
  redirect : option RedirectOption;
  leaveGuards : list Guard;
  updateGuards : list Guard;
  instances : gmap string string;
}.

Definition empty_record : RouteRecordNormalized :=
  {| components := []; beforeEnter := NoBeforeEnter; redirect := None;
     leaveGuards := []; updateGuards := []; instances := ∅ |}.

Global Instance RouteRecordNormalized_inhabited : Inhabited RouteRecordNormalized :=
  populate empty_record.

(** ** Array helpers of the source *)

(** [Array.prototype.indexOf] on a matched chain: references are compared. *)
Fixpoint indexOf (l : list RecordRef) (x : RecordRef) : Z :=
  match l with
  | [] => (-1)%Z
  | y :: l' =>
      if decide (y = x) then 0%Z
      else let i := indexOf l' x in if decide (i < 0)%Z then (-1)%Z else (i + 1)%Z
  end.

(** [extractChangingRecords(to, from)], on the two matched chains. *)
Definition extractChangingRecords (to_matched from_matched : list RecordRef)
  : list RecordRef * list RecordRef * list RecordRef :=
  let leavingRecords := filter (λ record, (indexOf to_matched record < 0)%Z) from_matched in
  let updatingRecords := filter (λ record, ¬ (indexOf to_matched record < 0)%Z) from_matched in
  let enteringRecords := filter (λ record, (indexOf from_matched record < 0)%Z) to_matched in
  (leavingRecords, updatingRecords, enteringRecords).

(** ** Collaborators that are not part of router.ts

    The matcher, the URL and query codecs and the location comparison are
    imported by router.ts; the router calls them and never looks inside.  They
    are fields of an environment, next to the build constants [__DEV__] and
    [isBrowser] and the options of [createRouter]. *)

Record ParsedURL := {
  pu_fullPath : string;
  pu_path : string;
  pu_query : LocationQuery;
  pu_hash : string;
}.

(** [MatcherLocationRaw], the argument of [matcher.resolve]: a name with
    params, a path, or params relative to the current location. *)
Record MatcherLocationRaw := {
  m_name : option string;
  m_path : option string;
  m_params : option RouteParams;
}.

Record MatcherLocation := {
  ml_name : option string;
  ml_path : string;
  ml_params : RouteParams;
  ml_matched : list RecordRef;
  ml_meta : gmap string string;
}.

Record Env := {
  DEV : bool;                      (* __DEV__ *)
  isBrowser : bool;
  scrollBehavior : bool;           (* options.scrollBehavior is provided *)
  history_base : string;           (* routerHistory.base *)
  window_history_state : option HistoryState;   (* history.state; None is null *)
  parseURL : string → string → ParsedURL;       (* parseURL(parseQuery, location, currentPath) *)
  matcher_resolve : MatcherLocationRaw → RouteLocation → option MatcherLocation;
                                   (* matcher.resolve; None when it throws *)
  encodeParams : option RouteParams → option RouteParams;
  decodeParams : RouteParams → RouteParams;
  normalizeParams : RouteParams → RouteParams;
  encodeHash : string → string;
  stringifyURL : string → option LocationQuery → string → string;
                                   (* stringifyURL(stringifyQuery, {path, query, hash}) *)
  normalizeQuery : option LocationQuery → LocationQuery;
  isSameRouteLocation : RouteLocation → RouteLocation → bool;
}.

(** ** The state shared by all navigations of one router *)

Inductive HistoryCall :=
| HistoryReplace (to : RouteLocation) (data : HistoryState)
| HistoryPush (to : RouteLocation) (data : option HistoryState).

Inductive Settlement :=
| Fulfilled
| RejectedWith (e : RouterError).

Inductive Event :=
| EvWarn (message : string)
| EvGuardCall (g : Guard) (to from : LocRef)
| EvGuardSettled (g : Guard) (to from : LocRef) (s : Settlement)
| EvAfterEach (hook : string) (to from : LocRef) (failure : option RouterError)
| EvErrorHandler (handler : string) (e : RouterError)
| EvScrollBehavior (to from : LocRef) (isPush isFirstNavigation : bool).

Record Router := {
  currentRoute : RouteLocation;
  (** [pendingLocation] is only ever compared by reference *)
  pendingLocation : LocRef;
  (** the next reference [resolve] gives to a location object *)
  nextRef : LocRef;
  (** the matcher's records, with their mutable guard and instance fields *)
  records : gmap RecordRef RouteRecordNormalized;
  beforeGuards : list Guard;
  beforeResolveGuards : list Guard;
  afterGuards : list string;
  errorHandlers : list string;
  (** the [resolve, reject] pairs queued by [isReady], by promise *)
  readyHandlers : list PromiseRef;
  ready : bool;
  (** the promises handed out by [isReady] that are settled *)
  settled : gmap PromiseRef Settlement;
  nextPromise : PromiseRef;
  (** calls made on the history collaborator, oldest first *)
  routerHistory : list HistoryCall;
  (** callbacks invoked and guards run, oldest first *)
  log : list Event;
}.

Definition set_pendingLocation (st : Router) (l : LocRef) : Router :=
  {| currentRoute := currentRoute st; pendingLocation := l; nextRef := nextRef st;
     records := records st; beforeGuards := beforeGuards st;
     beforeResolveGuards := beforeResolveGuards st; afterGuards := afterGuards st;
     errorHandlers := errorHandlers st; readyHandlers := readyHandlers st;
     ready := ready st; settled := settled st; nextPromise := nextPromise st;
     routerHistory := routerHistory st; log := log st |}.

Definition set_nextRef (st : Router) (n : LocRef) : Router :=
  {| currentRoute := currentRoute st; pendingLocation := pendingLocation st; nextRef := n;
     records := records st; beforeGuards := beforeGuards st;
     beforeResolveGuards := beforeResolveGuards st; afterGuards := afterGuards st;
     errorHandlers := errorHandlers st; readyHandlers := readyHandlers st;
     ready := ready st; settled := settled st; nextPromise := nextPromise st;
     routerHistory := routerHistory st; log := log st |}.

Definition set_currentRoute (st : Router) (l : RouteLocation) : Router :=
  {| currentRoute := l; pendingLocation := pendingLocation st; nextRef := nextRef st;
     records := records st; beforeGuards := beforeGuards st;
     beforeResolveGuards := beforeResolveGuards st; afterGuards := afterGuards st;
     errorHandlers := errorHandlers st; readyHandlers := readyHandlers st;
     ready := ready st; settled := settled st; nextPromise := nextPromise st;
     routerHistory := routerHistory st; log := log st |}.

Definition set_records (st : Router) (rs : gmap RecordRef RouteRecordNormalized) : Router :=
  {| currentRoute := currentRoute st; pendingLocation := pendingLocation st; nextRef := nextRef st;
     records := rs; beforeGuards := beforeGuards st;
     beforeResolveGuards := beforeResolveGuards st; afterGuards := afterGuards st;
     errorHandlers := errorHandlers st; readyHandlers := readyHandlers st;
     ready := ready st; settled := settled st; nextPromise := nextPromise st;
     routerHistory := routerHistory st; log := log st |}.

Definition set_routerHistory (st : Router) (h : list HistoryCall) : Router :=
  {| currentRoute := currentRoute st; pendingLocation := pendingLocation st; nextRef := nextRef st;
     records := records st; beforeGuards := beforeGuards st;
     beforeResolveGuards := beforeResolveGuards st; afterGuards := afterGuards st;
     errorHandlers := errorHandlers st; readyHandlers := readyHandlers st;
     ready := ready st; settled := settled st; nextPromise := nextPromise st;
     routerHistory := h; log := log st |}.

Definition set_log (st : Router) (l : list Event) : Router :=
  {| currentRoute := currentRoute st; pendingLocation := pendingLocation st; nextRef := nextRef st;
     records := records st; beforeGuards := beforeGuards st;
     beforeResolveGuards := beforeResolveGuards st; afterGuards := afterGuards st;
     errorHandlers := errorHandlers st; readyHandlers := readyHandlers st;
     ready := ready st; settled := settled st; nextPromise := nextPromise st;
     routerHistory := routerHistory st; log := l |}.

Definition emit (st : Router) (evs : list Event) : Router := set_log st (log st ++ evs).

(** [record.field] through a reference *)
Definition record_at (st : Router) (r : RecordRef) : RouteRecordNormalized :=
  records st !!! r.

Definition set_ready_state (st : Router) (r : bool) (hs : list PromiseRef)
    (s : gmap PromiseRef Settlement) (n : PromiseRef) : Router :=
  {| currentRoute := currentRoute st; pendingLocation := pendingLocation st; nextRef := nextRef st;
     records := records st; beforeGuards := beforeGuards st;
     beforeResolveGuards := beforeResolveGuards st; afterGuards := afterGuards st;
     errorHandlers := errorHandlers st; readyHandlers := hs;
     ready := r; settled := s; nextPromise := n;
     routerHistory := routerHistory st; log := log st |}.

Definition set_callbacks (st : Router) (b br a e : list string) : Router :=
  {| currentRoute := currentRoute st; pendingLocation := pendingLocation st; nextRef := nextRef st;
     records := records st; beforeGuards := b;
     beforeResolveGuards := br; afterGuards := a;
     errorHandlers := e; readyHandlers := readyHandlers st;
     ready := ready st; settled := settled st; nextPromise := nextPromise st;
     routerHistory := routerHistory st; log := log st |}.

(** ** resolve *)

Definition path_only (p : string) : LocationObject :=
  {| o_path := Some p; o_name := None; o_params := None; o_query := None;
     o_hash := None; o_state := None; o_force := None; o_replace := None |}.

Definition with_params (o : LocationObject) (ps : option RouteParams) : LocationObject :=
  {| o_path := o_path o; o_name := o_name o; o_params := ps; o_query := o_query o;
     o_hash := o_hash o; o_state := o_state o; o_force := o_force o; o_replace := o_replace o |}.

(** [resolve(rawLocation, currentLocation)].  [None] when [matcher.resolve]
    throws; otherwise the new location object and the state in which its
    reference is taken.  The [__DEV__] diagnostics of [resolve] only call
    [warn] and are left out. *)
Definition resolve (env : Env) (st : Router) (rawLocation : RouteLocationRaw)
    (currentLocation : option RouteLocation) : option (RouteLocation * Router) :=
  let currentLocation := default (currentRoute st) currentLocation in
  let fresh := nextRef st in
  let st' := set_nextRef st (S fresh) in
  match rawLocation with
  | RawString s =>
      let locationNormalized := parseURL env s (path currentLocation) in
      matchedRoute ← matcher_resolve env
                       {| m_name := None; m_path := Some (pu_path locationNormalized);
                          m_params := None |}
                       currentLocation;
      Some (mkRouteLocation fresh
              (pu_fullPath locationNormalized)
              (ml_path matchedRoute)
              (ml_name matchedRoute)
              (decodeParams env (ml_params matchedRoute))
              (pu_query locationNormalized)
              (pu_hash locationNormalized)
              (ml_matched matchedRoute)
              (ml_meta matchedRoute)
              (String.append (history_base env) (pu_fullPath locationNormalized))
              None, st')
  | RawObject o =>
      let matcherLocation :=
        match o_path o with
        | Some p =>
            {| m_name := o_name o;
               m_path := Some (pu_path (parseURL env p (path currentLocation)));
               m_params := o_params o |}
        | None =>
            {| m_name := o_name o; m_path := None;
               m_params := encodeParams env (o_params o) |}
        end in
      matchedRoute ← matcher_resolve env matcherLocation currentLocation;
      let hash := encodeHash env (default "" (o_hash o)) in
      let params :=
        match o_params o with
        | Some ps => normalizeParams env ps
        | None => decodeParams env (ml_params matchedRoute)
        end in
      let fullPath := stringifyURL env (ml_path matchedRoute) (o_query o) hash in
      Some (mkRouteLocation fresh
              fullPath
              (ml_path matchedRoute)
              (ml_name matchedRoute)
              params
              (normalizeQuery env (o_query o))
              hash
              (ml_matched matchedRoute)
              (ml_meta matchedRoute)
              (String.append (history_base env) fullPath)
              None, st')
  end.

(** [locationAsObject(to)] *)
Definition locationAsObject (to : RouteLocationRaw) : LocationObject :=
  match to with
  | RawString s => path_only s
  | RawObject o => o
  end.

(** A resolved location spread into an object literal: the keys a later
    [resolve] can read. *)
Definition location_object (l : RouteLocation) : LocationObject :=
  {| o_path := Some (path l); o_name := name l; o_params := Some (params l);
     o_query := Some (query l); o_hash := Some (hash l);
     o_state := None; o_force := None; o_replace := None |}.

(** [{ ...a, ...b }] *)
Definition spread (a b : LocationObject) : LocationObject :=
  {| o_path := o_path b ∪ o_path a; o_name := o_name b ∪ o_name a;
     o_params := o_params b ∪ o_params a; o_query := o_query b ∪ o_query a;
     o_hash := o_hash b ∪ o_hash a; o_state := o_state b ∪ o_state a;
     o_force := o_force b ∪ o_force a; o_replace := o_replace b ∪ o_replace a |}.

(** [{ ...o, state: data, force, replace }] *)
Definition with_options (o : LocationObject) (data : option HistoryState)
    (force : option bool) (replace : bool) : LocationObject :=
  {| o_path := o_path o; o_name := o_name o; o_params := o_params o; o_query := o_query o;
     o_hash := o_hash o; o_state := data; o_force := force; o_replace := Some replace |}.

(** [(to as RouteLocationOptions).state], [.force] and [.replace === true];
    on a string the three properties are not options. *)
Definition raw_state (to : RouteLocationRaw) : option HistoryState :=
  match to with RawString _ => None | RawObject o => o_state o end.
Definition raw_force (to : RouteLocationRaw) : option bool :=
  match to with RawString _ => None | RawObject o => o_force o end.
Definition raw_replace (to : RouteLocationRaw) : bool :=
  match to with RawString _ => false | RawObject o => bool_decide (o_replace o = Some true) end.

(** ** Scroll, readiness and errors *)

(** [handleScroll]: without a browser or a [scrollBehavior] nothing happens;
    otherwise the behaviour is scheduled.  Looking up the saved position is the
    scroll collaborator's business; the event keeps the arguments it is
    computed from. *)
Definition handleScroll (env : Env) (st : Router) (to from : RouteLocation)
    (isPush isFirstNavigation : bool) : Router :=
  if negb (isBrowser env) || negb (scrollBehavior env) then st
  else emit st [EvScrollBehavior (ref to) (ref from) isPush isFirstNavigation].

(** Settling a promise that is already settled does nothing. *)
Definition settle_promise (s : Settlement) (m : gmap PromiseRef Settlement) (p : PromiseRef) :=
  match m !! p with
  | Some _ => m
  | None => <[p := s]> m
  end.

(** [markAsReady(err)] *)
Definition markAsReady (st : Router) (err : option RouterError) : Router :=
  if ready st then st
  else
    let outcome := match err with Some e => RejectedWith e | None => Fulfilled end in
    set_ready_state st true []
      (foldl (settle_promise outcome) (settled st) (readyHandlers st))
      (nextPromise st).

(** [triggerError(error)]; the caller rejects with [error]. *)
Definition triggerError (st : Router) (error : RouterError) : Router :=
  let st := markAsReady st (Some error) in
  emit st (map (λ handler, EvErrorHandler handler error) (errorHandlers st)).

(** [isReady()]: the promise returned and the state after the call. *)
Definition isReady (st : Router) : PromiseRef * Router :=
  let p := nextPromise st in
  if ready st && negb (bool_decide (ref (currentRoute st) = ref START_LOCATION_NORMALIZED))
  then (p, set_ready_state st (ready st) (readyHandlers st) (<[p := Fulfilled]> (settled st)) (S p))
  else (p, set_ready_state st (ready st) (readyHandlers st ++ [p]) (settled st) (S p)).

(** [triggerAfterEach(to, from, failure)] *)
Definition triggerAfterEach (st : Router) (to from : RouteLocation)
    (failure : option RouterError) : Router :=
  emit st (map (λ guard, EvAfterEach guard (ref to) (ref from) failure) (afterGuards st)).

(** Registration through [useCallbacks]: [add] appends, [list] reads in
    registration order. *)
Definition beforeEach (st : Router) (g : Guard) : Router :=
  set_callbacks st (beforeGuards st ++ [g]) (beforeResolveGuards st) (afterGuards st) (errorHandlers st).
Definition beforeResolve (st : Router) (g : Guard) : Router :=
  set_callbacks st (beforeGuards st) (beforeResolveGuards st ++ [g]) (afterGuards st) (errorHandlers st).
Definition afterEach (st : Router) (g : string) : Router :=
  set_callbacks st (beforeGuards st) (beforeResolveGuards st) (afterGuards st ++ [g]) (errorHandlers st).
Definition onError (st : Router) (h : string) : Router :=
  set_callbacks st (beforeGuards st) (beforeResolveGuards st) (afterGuards st) (errorHandlers st ++ [h]).

(** ** Guard queues *)

(** Modelled from the spec: extractComponentsGuards (navigationGuards.ts is
    not among the sources).  For the records in the order given, the guard of
    the requested kind of each of the record's components. *)
Definition extractComponentsGuards (st : Router) (matched : list RecordRef)
    (guardType : GuardType) : list Guard :=
  flat_map (λ record,
      flat_map (λ nc : string * Component,
                  match component_guard nc.2 guardType with
                  | Some g => [g]
                  | None => []
                  end)
               (components (record_at st record)))
    matched.

Inductive Stage :=
| LeaveGuards
| GlobalBefore
| UpdateGuards
| BeforeEnterGuards
| EnterGuards
| GlobalBeforeResolve.

(** The queue [navigate] builds for a stage, read from the state at the moment
    the stage starts.  [leavingRecords] and [updatingRecords] are destructured
    once when [navigate] is entered; the matched chains are never mutated, so
    computing them at the stage gives the same lists. *)
Definition stage_guards (st : Router) (to from : RouteLocation) (s : Stage) : list Guard :=
  match s with
  | LeaveGuards =>
      let guards :=
        extractComponentsGuards st
          (reverse (filter (λ record, (indexOf (matched to) record < 0)%Z) (matched from)))
          beforeRouteLeave in
      let leavingRecords := (extractChangingRecords (matched to) (matched from)).1.1 in
      guards ++ flat_map (λ record, leaveGuards (record_at st record)) leavingRecords
  | GlobalBefore => beforeGuards st
  | UpdateGuards =>
      let guards :=
        extractComponentsGuards st
          (filter (λ record, (indexOf (matched from) record > -1)%Z) (matched to))
          beforeRouteUpdate in
      let updatingRecords := (extractChangingRecords (matched to) (matched from)).1.2 in
      guards ++ flat_map (λ record, updateGuards (record_at st record)) updatingRecords
  | BeforeEnterGuards =>
      flat_map (λ record,
          if decide (indexOf (matched from) record < 0)%Z then
            match beforeEnter (record_at st record) with
            | NoBeforeEnter => []
            | BeforeEnterFn g => [g]
            | BeforeEnterArray gs => gs
            end
          else [])
        (matched to)
  | EnterGuards =>
      extractComponentsGuards st
        (filter (λ record, (indexOf (matched from) record < 0)%Z) (matched to))
        beforeRouteEnter
  | GlobalBeforeResolve => beforeResolveGuards st
  end.

(** The [.then] chain of [navigate]. *)
Definition next_stage (s : Stage) : option Stage :=
  match s with
  | LeaveGuards => Some GlobalBefore
  | GlobalBefore => Some UpdateGuards
  | UpdateGuards => Some BeforeEnterGuards
  | BeforeEnterGuards => Some EnterGuards
  | EnterGuards => Some GlobalBeforeResolve
  | GlobalBeforeResolve => None
  end.

(** ** One navigation between two turns of the event loop *)

(** The variables a [pushWithRedirect] call closes over. *)
Record Navigation := {
  toLocation : RouteLocation;
  from : RouteLocation;
  data : option HistoryState;
  force : option bool;
  replace_flag : bool;
  nav_redirectedFrom : option RouteLocation;
}.

(** Where the promise chain of the call stands:
    - [Queue s guards]: [runGuardQueue] of stage [s] has [guards] left to call;
    - [Awaiting s g rest]: [g] was called and has not settled;
    - [Caught failure]: the promise after [.catch] is resolved with [failure]
      and the [.then] handler has not run. *)
Inductive Phase :=
| Queue (s : Stage) (guards : list Guard)
| Awaiting (s : Stage) (g : Guard) (rest : list Guard)
| Caught (failure : option RouterError).

Record Task := { nav : Navigation; phase : Phase }.

(** How the promise returned by [push] settles. *)
Inductive PushResult :=
| Resolved (failure : option RouterError)
| Rejected (error : RouterError).

Inductive Outcome :=
| Pending (t : Task)
| Settled (r : PushResult).

(** A synchronous call either throws or returns a promise. *)
Inductive Started :=
| Threw (e : RouterError)
| Returned (o : Outcome).

(** [record.leaveGuards = []; record.instances = {}] *)
Definition clear_record (r : RouteRecordNormalized) : RouteRecordNormalized :=
  {| components := components r; beforeEnter := beforeEnter r; redirect := redirect r;
     leaveGuards := []; updateGuards := updateGuards r; instances := ∅ |}.

(** [isFirstNavigation && state && state.scroll] *)
Definition first_scroll (env : Env) (isFirstNavigation : bool) : JSValue :=
  if isFirstNavigation then
    if isBrowser env then
      match window_history_state env with
      | None => VNull
      | Some state => default VUndefined (state !! "scroll")
      end
    else VUndefined
  else VFalse.

(** [finalizeNavigation(toLocation, from, isPush, replace, data)]: the state
    after the call and the failure returned, if any. *)
Definition finalizeNavigation (env : Env) (st : Router) (toLocation from : RouteLocation)
    (isPush replace : bool) (data : option HistoryState) : Router * option RouterError :=
  if negb (bool_decide (pendingLocation st = ref toLocation)) then
    (st, Some (NavigationFailure NAVIGATION_CANCELLED from toLocation))
  else
    let leavingRecords := (extractChangingRecords (matched toLocation) (matched from)).1.1 in
    let st := set_records st
                (foldl (λ rs record, alter clear_record record rs) (records st) leavingRecords) in
    let isFirstNavigation := bool_decide (ref from = ref START_LOCATION_NORMALIZED) in
    let st :=
      if isPush then
        if replace || isFirstNavigation then
          set_routerHistory st
            (routerHistory st ++
               [HistoryReplace toLocation
                  (default ∅ data ∪ {[ "scroll" := first_scroll env isFirstNavigation ]})])
        else set_routerHistory st (routerHistory st ++ [HistoryPush toLocation data])
      else st in
    let st := set_currentRoute st toLocation in
    let st := handleScroll env st toLocation from isPush isFirstNavigation in
    (markAsReady st None, None).

(** [failure.to] of a value whose type is NAVIGATION_GUARD_REDIRECT *)
Definition failure_to (f : RouterError) : RouteLocationRaw :=
  match f with
  | NavigationRedirectError to => to
  | NavigationFailure _ _ to => RawObject (location_object to)
  | _ => RawObject (location_object START_LOCATION_NORMALIZED)
  end.

(** The synchronous part of [pushWithRedirect(to, redirectedFrom)], up to the
    promise it returns.  A [redirect] on the matched leaf re-enters the
    function; [fuel] bounds that recursion, and [None] means it was not enough. *)
Fixpoint pushWithRedirect (fuel : nat) (env : Env) (st : Router) (to : RouteLocationRaw)
    (redirectedFrom : option RouteLocation) : option (Router * Started) :=
  match fuel with
  | 0 => None
  | S fuel =>
      match resolve env st to None with
      | None => Some (st, Threw MatcherError)
      | Some (targetLocation, st) =>
          let st := set_pendingLocation st (ref targetLocation) in
          let from := currentRoute st in
          let data := raw_state to in
          let force := raw_force to in
          let replace := raw_replace to in
          match last (matched targetLocation) ≫= (λ lastMatched, redirect (record_at st lastMatched)) with
          | Some redirect =>
              let newTargetLocation :=
                locationAsObject
                  match redirect with
                  | RedirectFn f => f targetLocation
                  | RedirectTo target => target
                  end in
              if DEV env && negb (bool_decide (is_Some (o_path newTargetLocation)))
                 && negb (bool_decide (is_Some (o_name newTargetLocation)))
              then
                Some (emit st [EvWarn "Invalid redirect found"],
                      Returned (Settled (Rejected (PlainError "Invalid redirect"))))
              else
                pushWithRedirect fuel env st
                  (RawObject (with_options (spread (location_object targetLocation) newTargetLocation)
                                data force replace))
                  (Some (default targetLocation redirectedFrom))
          | None =>
              let toLocation := set_redirectedFrom targetLocation redirectedFrom in
              let n := {| toLocation := toLocation; from := from; data := data; force := force;
                          replace_flag := replace; nav_redirectedFrom := redirectedFrom |} in
              if negb (bool_decide (force = Some true)) && isSameRouteLocation env from targetLocation
              then
                let failure := NavigationFailure NAVIGATION_DUPLICATED from toLocation in
                let st := handleScroll env st from from true false in
                Some (st, Returned (Pending {| nav := n; phase := Caught (Some failure) |}))
              else
                Some (st, Returned (Pending {| nav := n;
                                               phase := Queue LeaveGuards
                                                          (stage_guards st toLocation from LeaveGuards) |}))
          end
      end
  end.

Definition set_phase (t : Task) (p : Phase) : Task := {| nav := nav t; phase := p |}.

(** The [.catch] handler of [pushWithRedirect], run when [navigate] rejects
    with [error]. *)
Definition catch_handler (st : Router) (t : Task) (error : RouterError) : Router * Outcome :=
  let n := nav t in
  if negb (bool_decide (pendingLocation st = ref (toLocation n))) then
    (st, Pending (set_phase t
                    (Caught (Some (NavigationFailure NAVIGATION_CANCELLED (from n) (toLocation n))))))
  else if bool_decide (error_type error = Some NAVIGATION_ABORTED)
          || bool_decide (error_type error = Some NAVIGATION_GUARD_REDIRECT) then
    (st, Pending (set_phase t (Caught (Some error))))
  else
    (triggerError st error, Settled (Rejected error)).

(** The [.then] handler of [pushWithRedirect]. *)
Definition then_handler (fuel : nat) (env : Env) (st : Router) (t : Task)
    (failure : option RouterError) : option (Router * Outcome) :=
  let n := nav t in
  match failure with
  | Some f =>
      if bool_decide (error_type f = Some NAVIGATION_GUARD_REDIRECT) then
        match pushWithRedirect fuel env st
                (RawObject (with_options (locationAsObject (failure_to f))
                              (data n) (force n) (replace_flag n)))
                (Some (default (toLocation n) (nav_redirectedFrom n))) with
        | None => None
        | Some (st, Threw e) => Some (st, Settled (Rejected e))
        | Some (st, Returned o) => Some (st, o)
        end
      else
        Some (triggerAfterEach st (toLocation n) (from n) (Some f), Settled (Resolved (Some f)))
  | None =>
      let '(st, failure) :=
        finalizeNavigation env st (toLocation n) (from n) true (replace_flag n) (data n) in
      Some (triggerAfterEach st (toLocation n) (from n) failure, Settled (Resolved failure))
  end.

(** The next reaction of a navigation that is not waiting for a guard:
    [runGuardQueue] calls the next guard, or the queue is empty and the next
    [.then] of [navigate] builds the following queue, or [navigate] is over
    and the handlers of [pushWithRedirect] run. *)
Definition advance (fuel : nat) (env : Env) (st : Router) (t : Task)
    : option (Router * Outcome) :=
  let n := nav t in
  match phase t with
  | Queue s (g :: rest) =>
      Some (emit st [EvGuardCall g (ref (toLocation n)) (ref (from n))],
            Pending (set_phase t (Awaiting s g rest)))
  | Queue s [] =>
      match next_stage s with
      | Some s' => Some (st, Pending (set_phase t (Queue s' (stage_guards st (toLocation n) (from n) s'))))
      | None => Some (st, Pending (set_phase t (Caught None)))
      end
  | Awaiting _ _ _ => Some (st, Pending t)
  | Caught failure => then_handler fuel env st t failure
  end.

(** The guard a navigation waits for settles: fulfilled, the queue goes on;
    rejected, every later [.then] of [navigate] is skipped and the [.catch]
    handler runs. *)
Definition settle (st : Router) (t : Task) (s : Settlement) : Router * Outcome :=
  let n := nav t in
  match phase t with
  | Awaiting stage g rest =>
      let st := emit st [EvGuardSettled g (ref (toLocation n)) (ref (from n)) s] in
      match s with
      | Fulfilled => (st, Pending (set_phase t (Queue stage rest)))
      | RejectedWith error => catch_handler st t error
      end
  | _ => (st, Pending t)
  end.

(** [push(to)] *)
Definition push (fuel : nat) (env : Env) (st : Router) (to : RouteLocationRaw)
    : option (Router * Started) :=
  pushWithRedirect fuel env st to None.

Definition set_replace (o : LocationObject) (b : bool) : LocationObject :=
  {| o_path := o_path o; o_name := o_name o; o_params := o_params o; o_query := o_query o;
     o_hash := o_hash o; o_state := o_state o; o_force := o_force o; o_replace := Some b |}.

(** [replace(to)] *)
Definition replace (fuel : nat) (env : Env) (st : Router) (to : RouteLocationRaw)
    : option (Router * Started) :=
  push fuel env st (RawObject (set_replace (locationAsObject to) true)).

(** ** The router and its navigations in flight *)

Inductive Action :=
| APush (to : RouteLocationRaw)
| AReplace (to : RouteLocationRaw)
| AAdvance (id : nat)
| ASettle (id : nat) (s : Settlement)
| AIsReady
| ABeforeEach (g : Guard)
| ABeforeResolve (g : Guard)
| AAfterEach (g : string)
| AOnError (h : string).

(** [calls] lists the [push]/[replace] calls made so far, oldest first, each
    with what became of it; a navigation is named by its position. *)
Record World := {
  router : Router;
  calls : list Started;
}.

Definition createRouter : Router :=
  {| currentRoute := START_LOCATION_NORMALIZED;
     pendingLocation := ref START_LOCATION_NORMALIZED;
     nextRef := 1;
     records := ∅;
     beforeGuards := []; beforeResolveGuards := []; afterGuards := [];
     errorHandlers := []; readyHandlers := []; ready := false;
     settled := ∅; nextPromise := 0;
     routerHistory := []; log := [] |}.

Definition in_flight (w : World) (id : nat) : option Task :=
  match calls w !! id with
  | Some (Returned (Pending t)) => Some t
  | _ => None
  end.

Definition step (fuel : nat) (env : Env) (w : World) (a : Action) : option World :=
  match a with
  | APush to =>
      '(st, s) ← push fuel env (router w) to;
      Some {| router := st; calls := calls w ++ [s] |}
  | AReplace to =>
      '(st, s) ← replace fuel env (router w) to;
      Some {| router := st; calls := calls w ++ [s] |}
  | AAdvance id =>
      match in_flight w id with
      | Some t =>
          '(st, o) ← advance fuel env (router w) t;
          Some {| router := st; calls := <[id := Returned o]> (calls w) |}
      | None => Some w
      end
  | ASettle id s =>
      match in_flight w id with
      | Some t =>
          let '(st, o) := settle (router w) t s in
          Some {| router := st; calls := <[id := Returned o]> (calls w) |}
      | None => Some w
      end
  | AIsReady => Some {| router := (isReady (router w)).2; calls := calls w |}
  | ABeforeEach g => Some {| router := beforeEach (router w) g; calls := calls w |}
  | ABeforeResolve g => Some {| router := beforeResolve (router w) g; calls := calls w |}
  | AAfterEach g => Some {| router := afterEach (router w) g; calls := calls w |}
  | AOnError h => Some {| router := onError (router w) h; calls := calls w |}
  end.

Fixpoint run (fuel : nat) (env : Env) (w : World) (acts : list Action) : option World :=
  match acts with
  | [] => Some w
  | a :: acts => w' ← step fuel env w a; run fuel env w' acts
  end.

(** Driving one navigation alone, every guard it calls being fulfilled:
    [k] reactions of the navigation, no other activity in between. *)
Fixpoint run_fulfilled (k fuel : nat) (env : Env) (st : Router) (t : Task)
    : option (Router * Outcome) :=
  match k with
  | 0 => Some (st, Pending t)
  | S k =>
      let next :=
        match phase t with
        | Awaiting _ _ _ => Some (settle st t Fulfilled)
        | _ => advance fuel env st t
        end in
      match next with
      | Some (st, Pending t) => run_fulfilled k fuel env st t
      | r => r
      end
  end.

(** The guards called, in order. *)
Definition guards_called (l : list Event) : list Guard :=
  omap (λ e, match e with EvGuardCall g _ _ => Some g | _ => None end) l.

(** The location a history call is about. *)
Definition call_target (c : HistoryCall) : LocRef :=
  match c with
  | HistoryReplace to _ | HistoryPush to _ => ref to
  end.

(** ** The listener on history events

    [routerHistory.listen((to, _from, info) => ...)] starts a navigation when
    the history moves.  It resolves [to.fullPath], takes the pending token
    and runs [navigate] like [pushWithRedirect], but it has handlers of its
    own after [navigate]: they never push or replace, and they take the
    history back by [routerHistory.go(-info.delta, false)] when the
    navigation does not commit.  A reaction returns, beside the router, the
    [go] calls it made.  Saving the scroll position is the scroll
    collaborator's business. *)

(** [routerHistory.go(delta, triggerListeners)] *)
Abbreviation GoCall := (Z * bool)%type.

(** The variables the listener closes over: those of [navigate] and
    [info.delta]. *)
Record PopTask := { task : Task; delta : Z }.

(** How a reaction of the listener leaves its promise chain: still going, or
    at its end, with the [pushWithRedirect] call it made for a guard that
    redirected. *)
Inductive PopOutcome :=
| PopPending (t : PopTask)
| PopDone (spawned : option Started).

Definition pop_set_phase (t : PopTask) (p : Phase) : PopTask :=
  {| task := set_phase (task t) p; delta := delta t |}.

(** The synchronous part of the listener.  [None] when [resolve] throws. *)
Definition history_listener (env : Env) (st : Router) (to_fullPath : string) (info_delta : Z)
    : option (Router * PopTask) :=
  '(toLocation, st) ← resolve env st (RawString to_fullPath) None;
  let st := set_pendingLocation st (ref toLocation) in
  let from := currentRoute st in
  Some (st,
        {| task := {| nav := {| toLocation := toLocation; from := from; data := None;
                                force := None; replace_flag := false;
                                nav_redirectedFrom := None |};
                      phase := Queue LeaveGuards (stage_guards st toLocation from LeaveGuards) |};
           delta := info_delta |}).

(** The [.catch] handler of the listener.  On a guard redirect it takes the
    history back, calls [pushWithRedirect] on the guard's target with the
    target of this navigation as origin, and ends the chain; [None] when the
    fuel of that call runs out. *)
Definition pop_catch_handler (fuel : nat) (env : Env) (st : Router) (t : PopTask)
    (error : RouterError) : option (Router * list GoCall * PopOutcome) :=
  let n := nav (task t) in
  if negb (bool_decide (pendingLocation st = ref (toLocation n))) then
    Some (st, [],
          PopPending (pop_set_phase t
            (Caught (Some (NavigationFailure NAVIGATION_CANCELLED (from n) (toLocation n))))))
  else if bool_decide (error_type error = Some NAVIGATION_ABORTED) then
    Some (st, [], PopPending (pop_set_phase t (Caught (Some error))))
  else if bool_decide (error_type error = Some NAVIGATION_GUARD_REDIRECT) then
    '(st, s) ← pushWithRedirect fuel env st (failure_to error) (Some (toLocation n));
    Some (st, [((- delta t)%Z, false)], PopDone (Some s))
  else
    Some (triggerError st error, [((- delta t)%Z, false)], PopDone None).

(** The [.then] handler of the listener. *)
Definition pop_then_handler (env : Env) (st : Router) (t : PopTask)
    (failure : option RouterError) : Router * list GoCall * PopOutcome :=
  let n := nav (task t) in
  let '(st, failure) :=
    match failure with
    | Some f => (st, Some f)
    | None => finalizeNavigation env st (toLocation n) (from n) false false None
    end in
  (triggerAfterEach st (toLocation n) (from n) failure,
   match failure with
   | Some _ => [((- delta t)%Z, false)]
   | None => []
   end,
   PopDone None).

(** The next reaction of a navigation of the listener that is not waiting
    for a guard; the queues run as in [advance]. *)
Definition pop_advance (env : Env) (st : Router) (t : PopTask)
    : Router * list GoCall * PopOutcome :=
  let n := nav (task t) in
  match phase (task t) with
  | Queue s (g :: rest) =>
      (emit st [EvGuardCall g (ref (toLocation n)) (ref (from n))], [],
       PopPending (pop_set_phase t (Awaiting s g rest)))
  | Queue s [] =>
      match next_stage s with
      | Some s' =>
          (st, [], PopPending (pop_set_phase t
                                 (Queue s' (stage_guards st (toLocation n) (from n) s'))))
      | None => (st, [], PopPending (pop_set_phase t (Caught None)))
      end
  | Awaiting _ _ _ => (st, [], PopPending t)
  | Caught failure => pop_then_handler env st t failure
  end.

(** The guard a navigation of the listener waits for settles. *)
Definition pop_settle (fuel : nat) (env : Env) (st : Router) (t : PopTask) (s : Settlement)
    : option (Router * list GoCall * PopOutcome) :=
  let n := nav (task t) in
  match phase (task t) with
  | Awaiting stage g rest =>
      let st := emit st [EvGuardSettled g (ref (toLocation n)) (ref (from n)) s] in
      match s with
      | Fulfilled => Some (st, [], PopPending (pop_set_phase t (Queue stage rest)))
      | RejectedWith error => pop_catch_handler fuel env st t error
      end
  | _ => Some (st, [], PopPending t)
  end.

(** Driving one navigation of the listener alone, every guard it calls being
    fulfilled: [k] reactions, the [go] calls made on the way. *)
Fixpoint pop_run_fulfilled (k : nat) (env : Env) (st : Router) (t : PopTask)
    : Router * list GoCall * PopOutcome :=
  match k with
  | 0 => (st, [], PopPending t)
  | S k =>
      let next :=
        match phase (task t) with
        | Awaiting stage g rest =>
            (emit st [EvGuardSettled g (ref (toLocation (nav (task t))))
                        (ref (from (nav (task t)))) Fulfilled],
             [], PopPending (pop_set_phase t (Queue stage rest)))
        | _ => pop_advance env st t
        end in
      match next with
      | (st, gos, PopPending t) =>
          let '(st', gos', o) := pop_run_fulfilled k env st t in (st', gos ++ gos', o)
      | r => r
      end
  end.

(** ** A small route table

    The routes of the guards-instances example and of warnings.spec.ts, with
    a matcher that looks a path or a name up in a table. *)
Module Sample.

Definition Home : Component :=
  {| c_beforeRouteEnter := None; c_beforeRouteUpdate := None; c_beforeRouteLeave := None |}.

Definition Foo : Component :=
  {| c_beforeRouteEnter := Some "Foo.beforeRouteEnter";
     c_beforeRouteUpdate := Some "Foo.beforeRouteUpdate";
     c_beforeRouteLeave := Some "Foo.beforeRouteLeave" |}.

Definition view (c : Component) : RouteRecordNormalized :=
  {| components := [("default", c)]; beforeEnter := NoBeforeEnter; redirect := None;
     leaveGuards := []; updateGuards := []; instances := ∅ |}.

Definition redirecting (target : RouteLocationRaw) : RouteRecordNormalized :=
  {| components := []; beforeEnter := NoBeforeEnter; redirect := Some (RedirectTo target);
     leaveGuards := []; updateGuards := []; instances := ∅ |}.

Definition no_options : LocationObject :=
  {| o_path := None; o_name := None; o_params := None; o_query := None;
     o_hash := None; o_state := None; o_force := None; o_replace := None |}.

(** [{ params: { foo: 'f' } }], the redirect of warnings.spec.ts *)
Definition params_only : LocationObject := with_params no_options (Some {[ "foo" := ["f"] ]}).

(** 1: [/]   2: [/foo], mounted, with guards registered by its component
    3: [/redirect], redirect without name and path   4: [/old], redirect to [/foo]
    5: [/x]   6: [/y]   7: [/parent]   8: [/parent/child] *)
Definition table : gmap RecordRef RouteRecordNormalized :=
  <[1 := view Home]>
  (<[2 := {| components := [("default", Foo)]; beforeEnter := BeforeEnterFn "foo.beforeEnter";
             redirect := None; leaveGuards := ["setup:leave"]; updateGuards := ["setup:update"];
             instances := {[ "default" := "Foo#1" ]} |}]>
  (<[3 := redirecting (RawObject params_only)]>
  (<[4 := redirecting (RawString "/foo")]>
  (<[5 := view Home]>
  (<[6 := view Home]>
  (<[7 := view Foo]>
  (<[8 := view Foo]> ∅))))))).

Definition by_path (p : string) : list RecordRef :=
  if decide (p = "/") then [1]
  else if decide (p = "/foo") then [2]
  else if decide (p = "/redirect") then [3]
  else if decide (p = "/old") then [4]
  else if decide (p = "/x") then [5]
  else if decide (p = "/y") then [6]
  else if decide (p = "/parent") then [7]
  else if decide (p = "/parent/child") then [7; 8]
  else [].

Definition by_name (n : string) : option string :=
  if decide (n = "home") then Some "/"
  else if decide (n = "foo") then Some "/foo"
  else if decide (n = "login") then Some "/x"
  else None.

(** Stands for [matcher.resolve]: by name when a name is given (an unknown
    name throws), else by path; a path outside the table matches nothing. *)
Definition matcher (o : MatcherLocationRaw) (current : RouteLocation) : option MatcherLocation :=
  let found p := {| ml_name := m_name o; ml_path := p; ml_params := default ∅ (m_params o);
                    ml_matched := by_path p; ml_meta := ∅ |} in
  match m_name o with
  | Some n => found <$> by_name n
  | None => Some (found (default (path current) (m_path o)))
  end.

(** Modelled from the spec: isSameRouteLocation (location.ts is not among
    the sources): same matched leaf, same params, same query, same hash. *)
Definition same_location (a b : RouteLocation) : bool :=
  match last (matched a), last (matched b) with
  | Some x, Some y =>
      bool_decide (x = y) && bool_decide (params a = params b)
      && bool_decide (query a = query b) && bool_decide (hash a = hash b)
  | _, _ => false
  end.

(** A browser with a [scrollBehavior]; locations here carry neither query
    nor hash, so the codecs are identities. *)
Definition env_of (dev : bool) : Env :=
  {| DEV := dev; isBrowser := true; scrollBehavior := true; history_base := "";
     window_history_state := None;
     parseURL := λ location _, {| pu_fullPath := location; pu_path := location;
                                  pu_query := ∅; pu_hash := "" |};
     matcher_resolve := matcher;
     encodeParams := id; decodeParams := id; normalizeParams := id; encodeHash := id;
     stringifyURL := λ p _ h, String.append p h;
     normalizeQuery := default ∅;
     isSameRouteLocation := same_location |}.

Definition env : Env := env_of true.

(** A router on that table with two global guards and one of each hook. *)
Definition router0 : Router :=
  set_callbacks (set_records createRouter table)
    ["beforeEach1"; "beforeEach2"] ["beforeResolve1"] ["afterEach1"] ["onError1"].

Definition world0 : World := {| router := router0; calls := [] |}.

(** [n] turns of navigation [id], each guard it calls being fulfilled *)
Definition fulfil_all (id n : nat) : list Action :=
  concat (replicate n [AAdvance id; ASettle id Fulfilled]).

(** The location of [/foo] once committed, and the router standing there. *)
Definition foo_location : RouteLocation :=
  mkRouteLocation 1 "/foo" "/foo" None ∅ ∅ "" [2] ∅ "/foo" None.

Definition at_foo : Router :=
  set_nextRef (set_pendingLocation (set_currentRoute router0 foo_location) 1) 2.


(** From [/foo], one call and twelve turns of its navigation: the path of the
    current route, the guards called, and the last call on the history. *)
Definition from_foo (a : Action) : option (string * list Guard * option (string * string)) :=
  (λ w : World, (path (currentRoute (router w)),
                 guards_called (log (router w)),
                 match last (routerHistory (router w)) with
                 | Some (HistoryPush l _) => Some ("push", path l)
                 | Some (HistoryReplace l _) => Some ("replace", path l)
                 | None => None
                 end))
  <$> run 5 env {| router := at_foo; calls := [] |} (a :: fulfil_all 0 12).

(** [{ name: 'login', replace: false }], what a redirecting guard answers *)
Definition login : RouteLocationRaw :=
  RawObject (set_replace {| o_path := None; o_name := Some "login"; o_params := None;
                            o_query := None; o_hash := None; o_state := None;
                            o_force := None; o_replace := None |} false).

(** What is looked at in a world: the pending token, the guards called with
    the target of their navigation, the path of the current route, what
    became of each call, and the targets of the history calls. *)
Definition observe (w : World)
  : LocRef * list (Guard * LocRef) * string * list string * list LocRef :=
  (pendingLocation (router w),
   omap (λ e, match e with EvGuardCall g to _ => Some (g, to) | _ => None end) (log (router w)),
   path (currentRoute (router w)),
   map (λ c, match c with
             | Returned (Settled (Resolved None)) => "committed"
             | Returned (Settled (Resolved (Some f))) =>
                 match error_type f with
                 | Some NAVIGATION_CANCELLED => "cancelled"
                 | _ => "failed"
                 end
             | Returned (Settled (Rejected _)) => "rejected"
             | Returned (Pending _) => "pending"
             | Threw _ => "threw"
             end) (calls w),
   map call_target (routerHistory (router w))).

(** [push('/x')] is taken up to its first guard, [beforeEach1]; while that
    guard is awaited, [push('/y')] is called. *)
Definition race : list Action :=
  [APush (RawString "/x"); AAdvance 0; AAdvance 0; APush (RawString "/y")].

End Sample.

(** ** Vocabulary of the statements *)

(** The events [handleScroll] adds. *)
Definition handleScroll_events (env : Env) (to from : RouteLocation)
    (isPush isFirstNavigation : bool) : list Event :=
  if negb (isBrowser env) || negb (scrollBehavior env) then []
  else [EvScrollBehavior (ref to) (ref from) isPush isFirstNavigation].

Definition is_guard_call (e : Event) : bool :=
  match e with EvGuardCall _ _ _ => true | _ => false end.

(** [redirect] of the leaf of a matched chain, if the chain has a leaf and
    the leaf has the key. *)
Definition leaf_redirect (st : Router) (l : RouteLocation) : option RedirectOption :=
  last (matched l) ≫= (λ lastMatched, redirect (record_at st lastMatched)).

(** The object a [redirect] option computes for a target. *)
Definition redirect_target (rd : RedirectOption) (targetLocation : RouteLocation)
    : LocationObject :=
  locationAsObject
    match rd with
    | RedirectFn f => f targetLocation
    | RedirectTo target => target
    end.

(** What the log shows of a queue whose guards are all fulfilled: each guard
    is called, then settles, before the next is called. *)
Definition guard_events (to from : LocRef) (guards : list Guard) : list Event :=
  flat_map (λ g, [EvGuardCall g to from; EvGuardSettled g to from Fulfilled]) guards.

(** [record.beforeEnter], a single callback or an array of them *)
Definition beforeEnter_guards (r : RouteRecordNormalized) : list Guard :=
  match beforeEnter r with
  | NoBeforeEnter => []
  | BeforeEnterFn g => [g]
  | BeforeEnterArray gs => gs
  end.

(** The failures the [.then] handler of [pushWithRedirect] can be handed: the
    [.catch] handler lets through aborts, guard redirects and its own
    cancellation, and the synchronous part makes duplicates. *)
Definition recognized (f : RouterError) : Prop :=
  error_type f = Some NAVIGATION_ABORTED
  ∨ error_type f = Some NAVIGATION_GUARD_REDIRECT
  ∨ error_type f = Some NAVIGATION_CANCELLED
  ∨ error_type f = Some NAVIGATION_DUPLICATED.

Definition phase_wf (p : Phase) : Prop :=
  match p with
  | Caught (Some f) => recognized f
  | _ => True
  end.

(** [st] with a new allocation counter, a new pending location and a longer
    log: all the synchronous part of a navigation does to the router. *)
Definition retargeted (st : Router) (n p : LocRef) (evs : list Event) : Router :=
  emit (set_pendingLocation (set_nextRef st n) p) evs.




(** The events of the synchronous part: warnings and scroll requests. *)
Definition sync_event (e : Event) : Prop :=
  match e with
  | EvWarn _ | EvScrollBehavior _ _ _ _ => True
  | _ => False
  end.






(** A navigation to [l], resolved some time ago, no longer holds the pending
    token and has not been committed: [l] is not the current route and no
    history call was made for it. *)
Definition superseded (st : Router) (l : RouteLocation) : Prop :=
  pendingLocation st ≠ ref l
  ∧ ref l < nextRef st
  ∧ ref (currentRoute st) ≠ ref l
  ∧ Forall (λ c, call_target c ≠ ref l) (routerHistory st).

Definition cancelled (n : Navigation) : PushResult :=
  Resolved (Some (NavigationFailure NAVIGATION_CANCELLED (from n) (toLocation n))).

(** The phases of a navigation on its way through the guards, and of one
    whose [.catch] handler already saw that it was superseded. *)
Definition guarding (n : Navigation) (p : Phase) : Prop :=
  match p with
  | Queue _ _ | Awaiting _ _ _ | Caught None => True
  | Caught (Some f) => f = NavigationFailure NAVIGATION_CANCELLED (from n) (toLocation n)
  end.

(** Call [a] is the navigation [n], still in flight, or it has been settled
    as cancelled. *)
Definition losing (w : World) (a : nat) (n : Navigation) : Prop :=
  (∃ t, calls w !! a = Some (Returned (Pending t)) ∧ nav t = n ∧ guarding n (phase t))
  ∨ calls w !! a = Some (Returned (Settled (cancelled n))).

(** The location a history call shows. *)
Definition call_location (c : HistoryCall) : RouteLocation :=
  match c with
  | HistoryReplace to _ | HistoryPush to _ => to
  end.

(** The location the history shows after the calls made on it. *)
Definition history_location (h : list HistoryCall) : RouteLocation :=
  default START_LOCATION_NORMALIZED (call_location <$> last h).

Definition is_replace (c : HistoryCall) : Prop :=
  match c with
  | HistoryReplace _ _ => True
  | HistoryPush _ _ => False
  end.

(** A router on which no navigation was committed. *)
Definition fresh (st : Router) : Prop :=
  currentRoute st = START_LOCATION_NORMALIZED
  ∧ routerHistory st = []
  ∧ 0 < nextRef st
  ∧ pendingLocation st < nextRef st.

(** What [push], [replace] and their reactions keep of the router: the
    references in use were handed out by [resolve], the history shows the
    current route, its first call is a replacement, and a router that has
    committed is ready. *)
Definition router_coherent (st : Router) : Prop :=
  0 < nextRef st
  ∧ pendingLocation st < nextRef st
  ∧ currentRoute st = history_location (routerHistory st)
  ∧ Forall (λ c, 0 < call_target c < nextRef st) (routerHistory st)
  ∧ (∀ c, head (routerHistory st) = Some c → is_replace c)
  ∧ (routerHistory st ≠ [] → ready st = true).

(** ... and of a navigation in flight: its target was resolved, and if it
    holds the pending token it leaves from the current route. *)
Definition task_coherent (st : Router) (t : Task) : Prop :=
  0 < ref (toLocation (nav t)) < nextRef st
  ∧ (pendingLocation st = ref (toLocation (nav t)) → from (nav t) = currentRoute st).

(** No two navigations in flight share their target. *)
Definition coherent (w : World) : Prop :=
  router_coherent (router w)
  ∧ (∀ id t, in_flight w id = Some t → task_coherent (router w) t)
  ∧ (∀ id id' t t', in_flight w id = Some t → in_flight w id' = Some t' →
       ref (toLocation (nav t)) = ref (toLocation (nav t')) → id = id').

(** Promise [p] of [isReady] is queued on a router that is ready: nothing is
    left that could settle it. *)
Definition stuck (p : PromiseRef) (st : Router) : Prop :=
  ready st = true ∧ p ∈ readyHandlers st ∧ settled st !! p = None ∧ p < nextPromise st.
Definition is_after_each (e : Event) : bool :=
  match e with EvAfterEach _ _ _ _ => true | _ => false end.


(** * The in-memory history (history/memory.ts)

    [createMemoryHistory] keeps a queue of locations, a position in it and the
    callbacks given to [listen].  Locations are kept as [normalizeLocation]
    makes them; that function and [START] come from history/common.ts, which
    is not among the sources, and are parameters.  A callback is named by a
    number; calling it is recorded, and it is taken not to use the history
    while it runs. *)
Module MemoryHistory.

Inductive NavigationDirection := back | forward.

(** The [info] handed to a callback; its [type] is always [pop]. *)
Record NavigationInformation := {
  direction : NavigationDirection;
  distance : Z;
}.

Section WithLocations.

Context {Raw L : Type}.
Context (normalizeLocation : Raw → L) (START : L).

(** One call [callback(to, from, info)]; [to] and [from] are read from
    [queue[position]]. *)
Record Notification := {
  callback : nat;
  n_to : option L;
  n_from : option L;
  n_info : NavigationInformation;
}.

Record History := {
  listeners : list nat;
  queue : list L;
  position : Z;
  notified : list Notification;
}.

Definition createMemoryHistory : History :=
  {| listeners := []; queue := [START]; position := 0; notified := [] |}.

(** [array[i]] *)
Definition at_index {A} (l : list A) (i : Z) : option A :=
  if decide (i < 0)%Z then None else l !! Z.to_nat i.

(** What [array.splice(start, deleteCount)] leaves in the array: a negative
    [start] counts from the end, [start] and [deleteCount] are clamped, and
    without [deleteCount] everything from [start] on is removed. *)
Definition splice {A} (l : list A) (start : Z) (deleteCount : option Z) : list A :=
  let len := Z.of_nat (length l) in
  let first := if decide (start < 0)%Z then Z.max (len + start) 0 else Z.min start len in
  let count :=
    match deleteCount with
    | None => (len - first)%Z
    | Some c => Z.min (Z.max c 0) (len - first)
    end in
  take (Z.to_nat first) l ++ drop (Z.to_nat (first + count)) l.

(** The [location] getter *)
Definition location (h : History) : option L := at_index (queue h) (position h).

Definition setLocation (h : History) (loc : L) : History :=
  let position := (position h + 1)%Z in
  if decide (position = Z.of_nat (length (queue h))) then
    {| listeners := listeners h; queue := queue h ++ [loc]; position := position;
       notified := notified h |}
  else
    {| listeners := listeners h; queue := splice (queue h) position None ++ [loc];
       position := position; notified := notified h |}.

Definition replace (h : History) (to : Raw) : History :=
  let toNormalized := normalizeLocation to in
  setLocation
    {| listeners := listeners h; queue := splice (queue h) (position h) (Some 1%Z);
       position := (position h - 1)%Z; notified := notified h |}
    toNormalized.

Definition push (h : History) (to : Raw) : History :=
  setLocation h (normalizeLocation to).

Definition listen (h : History) (cb : nat) : History :=
  {| listeners := listeners h ++ [cb]; queue := queue h; position := position h;
     notified := notified h |}.

(** [listeners.indexOf(callback)] *)
Fixpoint index_of (l : list nat) (x : nat) : Z :=
  match l with
  | [] => (-1)%Z
  | y :: l' =>
      if decide (y = x) then 0%Z
      else let i := index_of l' x in if decide (i < 0)%Z then (-1)%Z else (i + 1)%Z
  end.

(** The function [listen(callback)] returns. *)
Definition unlisten (h : History) (cb : nat) : History :=
  let index := index_of (listeners h) cb in
  if decide (index > -1)%Z then
    {| listeners := splice (listeners h) index (Some 1%Z); queue := queue h;
       position := position h; notified := notified h |}
  else h.

Definition destroy (h : History) : History :=
  {| listeners := []; queue := queue h; position := position h; notified := notified h |}.

Definition triggerListeners (h : History) (to from : option L)
    (info : NavigationInformation) : History :=
  {| listeners := listeners h; queue := queue h; position := position h;
     notified := notified h
                 ++ map (λ cb, {| callback := cb; n_to := to; n_from := from; n_info := info |})
                        (listeners h) |}.

Definition go (h : History) (distance : Z) (shouldTrigger : bool) : History :=
  let from := location h in
  let direction := if decide (distance < 0)%Z then back else forward in
  let h := {| listeners := listeners h; queue := queue h;
              position := Z.max 0 (Z.min (position h + distance)
                                         (Z.of_nat (length (queue h)) - 1));
              notified := notified h |} in
  if shouldTrigger then
    triggerListeners h (location h) from {| direction := direction; distance := distance |}
  else h.

Definition go_back (h : History) (shouldTrigger : bool) : History := go h (-1) shouldTrigger.
Definition go_forward (h : History) (shouldTrigger : bool) : History := go h 1 shouldTrigger.

Inductive Op :=
| OpPush (to : Raw)
| OpReplace (to : Raw)
| OpGo (distance : Z) (shouldTrigger : bool)
| OpBack (shouldTrigger : bool)
| OpForward (shouldTrigger : bool)
| OpListen (cb : nat)
| OpUnlisten (cb : nat)
| OpDestroy.

Definition apply (h : History) (op : Op) : History :=
  match op with
  | OpPush to => push h to
  | OpReplace to => replace h to
  | OpGo d b => go h d b
  | OpBack b => go_back h b
  | OpForward b => go_forward h b
  | OpListen cb => listen h cb
  | OpUnlisten cb => unlisten h cb
  | OpDestroy => destroy h
  end.

(** The position points into the queue. *)
Definition in_range (h : History) : Prop :=
  (0 ≤ position h < Z.of_nat (length (queue h)))%Z.

End WithLocations.

Arguments Notification L : clear implicits.
Arguments History L : clear implicits.

End MemoryHistory.

(** A call the router makes on its history, as an operation of the in-memory
    history; the state handed over is not kept there. *)
Definition history_op (c : HistoryCall) : MemoryHistory.Op :=
  match c with
  | HistoryReplace to _ => MemoryHistory.OpReplace to
  | HistoryPush to _ => MemoryHistory.OpPush to
  end.

(** * Properties *)

(** ** Matched chains *)

Lemma indexOf_lower (l : list RecordRef) (x : RecordRef) : (-1 ≤ indexOf l x)%Z.
Proof.
  induction l as [|y l IH]; simpl; [lia|].
  destruct (decide (y = x)); [lia|].
  destruct (decide (indexOf l x < 0)%Z); lia.
Qed.

Lemma indexOf_absent (l : list RecordRef) (x : RecordRef) : (indexOf l x < 0)%Z ↔ x ∉ l.
Proof.
  induction l as [|y l IH]; simpl.
  - split; [intros _; apply not_elem_of_nil | lia].
  - rewrite not_elem_of_cons. destruct (decide (y = x)) as [->|Hne].
    + split; [lia | intros [? _]; congruence].
    + pose proof (indexOf_lower l x).
      destruct (decide (indexOf l x < 0)%Z) as [Hlt|Hge].
      * split; [intros _; split; [congruence | by apply IH] | lia].
      * split; [lia | intros [_ Hx]; apply IH in Hx; lia].
Qed.

Lemma indexOf_present (l : list RecordRef) (x : RecordRef) : (indexOf l x > -1)%Z ↔ x ∈ l.
Proof.
  pose proof (indexOf_lower l x). split.
  - intros Hgt. destruct (decide (x ∈ l)) as [|Hn]; [done|].
    apply indexOf_absent in Hn. lia.
  - intros Hin. destruct (decide (indexOf l x < 0)%Z) as [Hlt|]; [|lia].
    apply indexOf_absent in Hlt. done.
Qed.

Lemma leaving_filter (to_matched from_matched : list RecordRef) :
  filter (λ record, (indexOf to_matched record < 0)%Z) from_matched
  = filter (.∉ to_matched) from_matched.
Proof. apply list_filter_iff. intros x. apply indexOf_absent. Qed.

Lemma updating_filter (to_matched from_matched : list RecordRef) :
  filter (λ record, ¬ (indexOf to_matched record < 0)%Z) from_matched
  = filter (.∈ to_matched) from_matched.
Proof.
  apply list_filter_iff. intros x. rewrite indexOf_absent.
  destruct (decide (x ∈ to_matched)); tauto.
Qed.

(** C4, as stated, fails: for [to.matched = []] and [from.matched = [7; 8]]
    (parent, then child) [extractChangingRecords] returns the leaving records
    parent first, not leaf first. *)
Lemma extractChangingRecords_leaving_not_reversed :
  (extractChangingRecords [] [7; 8]).1.1 = [7; 8]
  ∧ (extractChangingRecords [] [7; 8]).1.1 ≠ reverse (filter (.∉ []) [7; 8]).
Proof. split; [reflexivity | vm_compute; discriminate]. Qed.

(** C4, amended: [extractChangingRecords] returns the leaving records (those
    of [from.matched] that are not in [to.matched]) in the order of
    [from.matched], root to leaf; the updating records are those of
    [from.matched] that are in [to.matched]; the entering records are those of
    [to.matched] not in [from.matched], root to leaf.  Every record of either
    chain is in exactly one of the three lists, and they contain nothing else.
    (The leaf-to-root order is produced by [navigate] itself, for the
    [beforeRouteLeave] guards of components only.) *)
Theorem extractChangingRecords_partition (to_matched from_matched : list RecordRef) :
  let '(leaving, updating, entering) := extractChangingRecords to_matched from_matched in
  leaving = filter (.∉ to_matched) from_matched
  ∧ updating = filter (.∈ to_matched) from_matched
  ∧ entering = filter (.∉ from_matched) to_matched
  ∧ (∀ r, r ∈ leaving ∨ r ∈ updating ∨ r ∈ entering ↔ r ∈ from_matched ∨ r ∈ to_matched)
  ∧ (∀ r, ¬ (r ∈ leaving ∧ r ∈ updating) ∧ ¬ (r ∈ leaving ∧ r ∈ entering)
          ∧ ¬ (r ∈ updating ∧ r ∈ entering)).
Proof.
  unfold extractChangingRecords.
  rewrite !leaving_filter, updating_filter.
  split; [done|]. split; [done|]. split; [done|]. split.
  - intros r. rewrite !list_elem_of_filter.
    destruct (decide (r ∈ to_matched)), (decide (r ∈ from_matched)); tauto.
  - intros r. rewrite !list_elem_of_filter. tauto.
Qed.

(** ** Finalization *)

Lemma clear_record_idemp (r : RouteRecordNormalized) :
  clear_record (clear_record r) = clear_record r.
Proof. reflexivity. Qed.

Lemma clear_leaving_lookup (l : list RecordRef) (rs : gmap RecordRef RouteRecordNormalized)
    (r : RecordRef) :
  foldl (λ rs record, alter clear_record record rs) rs l !! r
  = if decide (r ∈ l) then clear_record <$> rs !! r else rs !! r.
Proof.
  revert rs. induction l as [|x l IH]; intros rs; cbn [foldl].
  - rewrite decide_False; [done | apply not_elem_of_nil].
  - rewrite IH, lookup_alter.
    destruct (decide (x = r)) as [Heq|Hne], (decide (r ∈ l)), (decide (r ∈ x :: l));
      set_unfold; subst; try naive_solver.
    destruct (rs !! r); simpl; [by rewrite clear_record_idemp | done].
Qed.

Lemma markAsReady_fields (st : Router) (err : option RouterError) :
  currentRoute (markAsReady st err) = currentRoute st
  ∧ pendingLocation (markAsReady st err) = pendingLocation st
  ∧ nextRef (markAsReady st err) = nextRef st
  ∧ records (markAsReady st err) = records st
  ∧ routerHistory (markAsReady st err) = routerHistory st
  ∧ log (markAsReady st err) = log st
  ∧ beforeGuards (markAsReady st err) = beforeGuards st
  ∧ beforeResolveGuards (markAsReady st err) = beforeResolveGuards st
  ∧ afterGuards (markAsReady st err) = afterGuards st
  ∧ errorHandlers (markAsReady st err) = errorHandlers st
  ∧ nextPromise (markAsReady st err) = nextPromise st.
Proof. unfold markAsReady. destruct (ready st); repeat split; reflexivity. Qed.

Lemma handleScroll_fields (env : Env) (st : Router) (to from : RouteLocation) (p f : bool) :
  currentRoute (handleScroll env st to from p f) = currentRoute st
  ∧ pendingLocation (handleScroll env st to from p f) = pendingLocation st
  ∧ nextRef (handleScroll env st to from p f) = nextRef st
  ∧ records (handleScroll env st to from p f) = records st
  ∧ routerHistory (handleScroll env st to from p f) = routerHistory st
  ∧ ready (handleScroll env st to from p f) = ready st
  ∧ readyHandlers (handleScroll env st to from p f) = readyHandlers st
  ∧ settled (handleScroll env st to from p f) = settled st
  ∧ nextPromise (handleScroll env st to from p f) = nextPromise st
  ∧ beforeGuards (handleScroll env st to from p f) = beforeGuards st
  ∧ beforeResolveGuards (handleScroll env st to from p f) = beforeResolveGuards st
  ∧ afterGuards (handleScroll env st to from p f) = afterGuards st
  ∧ errorHandlers (handleScroll env st to from p f) = errorHandlers st.
Proof.
  unfold handleScroll.
  destruct (negb (isBrowser env) || negb (scrollBehavior env)); repeat split; reflexivity.
Qed.

(** A superseded navigation is refused by [finalizeNavigation], which then
    leaves the router as it is. *)
Lemma finalizeNavigation_cancelled (env : Env) (st : Router) (to from : RouteLocation)
    (isPush replace : bool) (data : option HistoryState) :
  pendingLocation st ≠ ref to →
  finalizeNavigation env st to from isPush replace data
  = (st, Some (NavigationFailure NAVIGATION_CANCELLED from to)).
Proof.
  intros Hne. unfold finalizeNavigation.
  rewrite bool_decide_eq_false_2 by done. reflexivity.
Qed.

(** A navigation that is still the pending one commits: the target becomes
    the current route, and of the records exactly the leaving ones are
    touched, losing [leaveGuards] and [instances] and nothing else. *)
Lemma finalizeNavigation_commit (env : Env) (st : Router) (to from : RouteLocation)
    (isPush replace : bool) (data : option HistoryState) :
  pendingLocation st = ref to →
  let r := finalizeNavigation env st to from isPush replace data in
  r.2 = None
  ∧ currentRoute r.1 = to
  ∧ pendingLocation r.1 = pendingLocation st
  ∧ ∀ record, records r.1 !! record
      = if decide (record ∈ filter (.∉ matched to) (matched from))
        then clear_record <$> records st !! record
        else records st !! record.
Proof.
  intros Hp. unfold finalizeNavigation.
  rewrite bool_decide_eq_true_2 by done. cbn [negb fst snd].
  split; [reflexivity|].
  match goal with |- context [markAsReady ?s None] =>
    destruct (markAsReady_fields s None) as (Hc & Hpl & _ & Hr & _) end.
  rewrite Hc, Hpl, Hr.
  match goal with |- context [handleScroll env ?s to from ?p ?f] =>
    destruct (handleScroll_fields env s to from p f) as (Hc' & Hpl' & _ & Hr' & _) end.
  rewrite Hc', Hpl', Hr'.
  split; [reflexivity|]. split.
  - destruct isPush; [destruct (replace || _)|]; reflexivity.
  - intros record.
    replace (records _) with
      (foldl (λ rs record, alter clear_record record rs) (records st)
         (extractChangingRecords (matched to) (matched from)).1.1)
      by (destruct isPush; [destruct (replace || _)|]; reflexivity).
    rewrite clear_leaving_lookup. unfold extractChangingRecords. cbn [fst].
    by rewrite leaving_filter.
Qed.

(** The sample router standing at [/foo] is where [push('/foo')] leads. *)
Example at_foo_reached :
  (λ w : World, (currentRoute (router w), pendingLocation (router w), nextRef (router w)))
  <$> run 5 Sample.env Sample.world0 (APush (RawString "/foo") :: Sample.fulfil_all 0 12)
  = Some (currentRoute Sample.at_foo, pendingLocation Sample.at_foo, nextRef Sample.at_foo).
Proof. vm_compute. reflexivity. Qed.

(** C7: the claim holds for [leaveGuards] and [instances] but the code leaves
    the [updateGuards] of a leaving record in place.  On the sample table,
    [/foo] is entered and then left for [/]: both navigations commit, the
    record of [/foo] has lost its [leaveGuards] and its [instances], and its
    [updateGuards] are still registered. *)
Theorem updateGuards_survive_leave :
  (λ w : World,
     (path (currentRoute (router w)),
      leaveGuards (record_at (router w) 2),
      bool_decide (instances (record_at (router w) 2) = ∅),
      updateGuards (record_at (router w) 2)))
  <$> run 5 Sample.env Sample.world0
        ([APush (RawString "/foo")] ++ Sample.fulfil_all 0 12
         ++ [APush (RawString "/")] ++ Sample.fulfil_all 1 12)
  = Some ("/", [], true, ["setup:update"]).
Proof. vm_compute. reflexivity. Qed.

(** ** The synchronous part of a navigation *)

Lemma emit_nil (st : Router) : emit st [] = st.
Proof. destruct st. unfold emit, set_log. simpl. by rewrite app_nil_r. Qed.

Lemma emit_emit (st : Router) (a b : list Event) : emit (emit st a) b = emit st (a ++ b).
Proof. unfold emit, set_log. simpl. by rewrite app_assoc. Qed.

Lemma handleScroll_emit (env : Env) (st : Router) (to from : RouteLocation) (p f : bool) :
  handleScroll env st to from p f = emit st (handleScroll_events env to from p f).
Proof.
  unfold handleScroll, handleScroll_events.
  destruct (negb (isBrowser env) || negb (scrollBehavior env)); [by rewrite emit_nil | done].
Qed.

Lemma resolve_inv (env : Env) (st : Router) (to : RouteLocationRaw)
    (cur : option RouteLocation) (target : RouteLocation) (st1 : Router) :
  resolve env st to cur = Some (target, st1) →
  st1 = set_nextRef st (S (nextRef st)) ∧ ref target = nextRef st
  ∧ redirectedFrom target = None.
Proof.
  unfold resolve. destruct to as [s|o]; simpl;
    (destruct (matcher_resolve env _ _); simpl; [|done]);
    intros [= <- <-]; done.
Qed.

Lemma set_redirectedFrom_None (l : RouteLocation) :
  redirectedFrom l = None → set_redirectedFrom l None = l.
Proof. destruct l; simpl; intros ->; reflexivity. Qed.

(** One unfolding of [pushWithRedirect] on a target whose leaf redirects *)
Lemma pushWithRedirect_redirect (fuel : nat) (env : Env) (st : Router) (to : RouteLocationRaw)
    (rf : option RouteLocation) (target : RouteLocation) (st1 : Router) (rd : RedirectOption) :
  resolve env st to None = Some (target, st1) →
  leaf_redirect st target = Some rd →
  pushWithRedirect (S fuel) env st to rf
  = if DEV env && negb (bool_decide (is_Some (o_path (redirect_target rd target))))
       && negb (bool_decide (is_Some (o_name (redirect_target rd target))))
    then Some (emit (set_pendingLocation st1 (ref target)) [EvWarn "Invalid redirect found"],
               Returned (Settled (Rejected (PlainError "Invalid redirect"))))
    else pushWithRedirect fuel env (set_pendingLocation st1 (ref target))
           (RawObject (with_options (spread (location_object target) (redirect_target rd target))
                         (raw_state to) (raw_force to) (raw_replace to)))
           (Some (default target rf)).
Proof.
  intros Hres Hrd. cbn [pushWithRedirect]. rewrite Hres.
  destruct (resolve_inv _ _ _ _ _ _ Hres) as (-> & _ & _).
  unfold leaf_redirect, record_at in Hrd. unfold record_at. cbn [records set_pendingLocation set_nextRef].
  rewrite Hrd. reflexivity.
Qed.

(** One unfolding of [pushWithRedirect] on a target whose leaf does not *)
Lemma pushWithRedirect_navigate (fuel : nat) (env : Env) (st : Router) (to : RouteLocationRaw)
    (rf : option RouteLocation) (target : RouteLocation) (st1 : Router) :
  resolve env st to None = Some (target, st1) →
  leaf_redirect st target = None →
  let toLocation := set_redirectedFrom target rf in
  let st2 := set_pendingLocation st1 (ref target) in
  let n := {| toLocation := toLocation; from := currentRoute st; data := raw_state to;
              force := raw_force to; replace_flag := raw_replace to;
              nav_redirectedFrom := rf |} in
  pushWithRedirect (S fuel) env st to rf
  = if negb (bool_decide (raw_force to = Some true))
       && isSameRouteLocation env (currentRoute st) target
    then Some (handleScroll env st2 (currentRoute st) (currentRoute st) true false,
               Returned (Pending {| nav := n;
                  phase := Caught (Some (NavigationFailure NAVIGATION_DUPLICATED
                                           (currentRoute st) toLocation)) |}))
    else Some (st2, Returned (Pending {| nav := n;
                  phase := Queue LeaveGuards
                             (stage_guards st2 toLocation (currentRoute st) LeaveGuards) |})).
Proof.
  intros Hres Hrd. cbn [pushWithRedirect]. rewrite Hres.
  destruct (resolve_inv _ _ _ _ _ _ Hres) as (-> & _ & _).
  unfold leaf_redirect, record_at in Hrd. unfold record_at. cbn [records set_pendingLocation set_nextRef].
  rewrite Hrd. reflexivity.
Qed.

(** ** Duplicated navigation *)

Lemma filter_map_none {A} (P : Event → bool) (f : A → Event) (l : list A) :
  (∀ x, P (f x) = false) → filter P (map f l) = [].
Proof.
  intros H. induction l as [|a l IH]; [done|].
  cbn [map]. rewrite filter_cons_False; [exact IH|]. rewrite H. exact id.
Qed.

(** C3: a [push] (and so a [replace], which is a [push]) whose resolved target
    is the same location as the current route, without [force], returns a
    promise that the [.then] handler resolves with a NAVIGATION_DUPLICATED
    failure.  No guard queue is built, the current route, the history and the
    records are untouched, and [handleScroll(from, from, true, false)] has
    been called: the log grows by its events and the [afterEach] hooks only. *)
Theorem duplicate_navigation (fuel : nat) (env : Env) (st : Router) (to : RouteLocationRaw)
    (target : RouteLocation) (st1 : Router) :
  resolve env st to None = Some (target, st1) →
  leaf_redirect st target = None →
  raw_force to ≠ Some true →
  isSameRouteLocation env (currentRoute st) target = true →
  let from := currentRoute st in
  let failure := NavigationFailure NAVIGATION_DUPLICATED from target in
  let t := {| nav := {| toLocation := target; from := from; data := raw_state to;
                        force := raw_force to; replace_flag := raw_replace to;
                        nav_redirectedFrom := None |};
              phase := Caught (Some failure) |} in
  let st2 := handleScroll env (set_pendingLocation st1 (ref target)) from from true false in
  let st3 := triggerAfterEach st2 target from (Some failure) in
  push (S fuel) env st to = Some (st2, Returned (Pending t))
  ∧ advance fuel env st2 t = Some (st3, Settled (Resolved (Some failure)))
  ∧ currentRoute st3 = currentRoute st
  ∧ routerHistory st3 = routerHistory st
  ∧ records st3 = records st
  ∧ log st3 = log st ++ handleScroll_events env from from true false
                     ++ map (λ guard, EvAfterEach guard (ref target) (ref from) (Some failure))
                            (afterGuards st)
  ∧ filter is_guard_call (log st3) = filter is_guard_call (log st).
Proof.
  intros Hres Hrd Hforce Hsame. cbn zeta.
  destruct (resolve_inv _ _ _ _ _ _ Hres) as (Hst1 & Href & Hrf).
  split.
  { unfold push. rewrite (pushWithRedirect_navigate _ _ _ _ _ _ _ Hres Hrd).
    rewrite Hsame, bool_decide_eq_false_2 by done. cbn [negb andb].
    by rewrite set_redirectedFrom_None. }
  split; [reflexivity|].
  rewrite handleScroll_emit. subst st1.
  unfold triggerAfterEach. rewrite emit_emit.
  cbn [emit set_log currentRoute routerHistory records log set_pendingLocation set_nextRef
       afterGuards].
  split; [done|]. split; [done|]. split; [done|]. split; [done|].
  rewrite filter_app.
  assert (filter is_guard_call
            (handleScroll_events env (currentRoute st) (currentRoute st) true false
             ++ map (λ guard, EvAfterEach guard (ref target) (ref (currentRoute st))
                               (Some (NavigationFailure NAVIGATION_DUPLICATED (currentRoute st) target)))
                    (afterGuards st)) = []) as ->; [|by rewrite app_nil_r].
  rewrite filter_app. unfold handleScroll_events.
  rewrite filter_map_none by done.
  by destruct (negb (isBrowser env) || negb (scrollBehavior env)).
Qed.

Lemma duplicate_navigation_witness :
  ∃ st2 t failure,
    push 2 Sample.env Sample.at_foo (RawString "/foo") = Some (st2, Returned (Pending t))
    ∧ advance 1 Sample.env st2 t
      = Some (triggerAfterEach st2 (toLocation (nav t)) Sample.foo_location (Some failure),
              Settled (Resolved (Some failure)))
    ∧ error_type failure = Some NAVIGATION_DUPLICATED.
Proof.
  destruct (duplicate_navigation 1 Sample.env Sample.at_foo (RawString "/foo")
              (mkRouteLocation 2 "/foo" "/foo" None ∅ ∅ "" [2] ∅ "/foo" None)
              (set_nextRef Sample.at_foo 3)) as (H1 & H2 & _).
  - vm_compute. reflexivity.
  - vm_compute. reflexivity.
  - discriminate.
  - vm_compute. reflexivity.
  - eexists _, _, _. split; [exact H1|]. split; [exact H2|]. reflexivity.
Defined.

(** ** Redirects *)

Lemma raw_replace_with_options (o : LocationObject) (d : option HistoryState)
    (f : option bool) (r : bool) :
  raw_replace (RawObject (with_options o d f r)) = r.
Proof. destruct r; reflexivity. Qed.

(** What the synchronous part hands to the promise chain, however many
    record redirects were followed on the way. *)
Lemma pushWithRedirect_origin (env : Env) (fuel : nat) :
  ∀ (st : Router) (to : RouteLocationRaw) (rf : option RouteLocation) (st' : Router) (t : Task),
    pushWithRedirect fuel env st to rf = Some (st', Returned (Pending t)) →
    nav_redirectedFrom (nav t) = redirectedFrom (toLocation (nav t))
    ∧ match rf with
      | Some origin => redirectedFrom (toLocation (nav t)) = Some origin
      | None =>
          redirectedFrom (toLocation (nav t)) = None
          ∨ ∃ target st1, resolve env st to None = Some (target, st1)
                          ∧ redirectedFrom (toLocation (nav t)) = Some target
      end
    ∧ data (nav t) = raw_state to
    ∧ force (nav t) = raw_force to
    ∧ replace_flag (nav t) = raw_replace to.
Proof.
  induction fuel as [|fuel IH]; intros st to rf st' t Hp; [discriminate|].
  destruct (resolve env st to None) as [[target st1]|] eqn:Hres;
    [|cbn [pushWithRedirect] in Hp; rewrite Hres in Hp; discriminate].
  destruct (leaf_redirect st target) as [rd|] eqn:Hrd.
  - rewrite (pushWithRedirect_redirect _ _ _ _ _ _ _ _ Hres Hrd) in Hp.
    destruct (DEV env && _ && _); [discriminate|].
    apply IH in Hp as (Hnav & Horigin & Hdata & Hforce & Hreplace).
    rewrite raw_replace_with_options in Hreplace. cbn in Hdata, Hforce.
    repeat split; try done.
    destruct rf as [origin|]; cbn in Horigin; [done|].
    right. eauto.
  - rewrite (pushWithRedirect_navigate _ _ _ _ _ _ _ Hres Hrd) in Hp.
    assert (nav t = {| toLocation := set_redirectedFrom target rf; from := currentRoute st;
                       data := raw_state to; force := raw_force to;
                       replace_flag := raw_replace to; nav_redirectedFrom := rf |}) as ->
      by (destruct (negb _ && _); by simplify_eq).
    cbn. repeat split; try done. destruct rf; [done | by left].
Qed.



(** ** Redirect without name and path *)





(** ** Order of the guards *)

Lemma flat_map_filter {A B} (P : A → Prop) `{∀ x, Decision (P x)} (f : A → list B) (l : list A) :
  flat_map (λ x, if decide (P x) then f x else []) l = flat_map f (filter P l).
Proof.
  induction l as [|a l IH]; [done|].
  cbn [flat_map]. destruct (decide (P a)).
  - rewrite filter_cons_True by done. cbn [flat_map]. by rewrite IH.
  - rewrite filter_cons_False by done. by rewrite IH.
Qed.

Lemma run_fulfilled_queue (fuel : nat) (env : Env) (n : Navigation) (s : Stage) :
  ∀ (guards : list Guard) (k : nat) (st : Router),
    run_fulfilled (2 * length guards + k) fuel env st {| nav := n; phase := Queue s guards |}
    = run_fulfilled k fuel env
        (emit st (guard_events (ref (toLocation n)) (ref (from n)) guards))
        {| nav := n; phase := Queue s [] |}.
Proof.
  induction guards as [|g guards IH]; intros k st.
  - cbn [length guard_events flat_map]. by rewrite emit_nil.
  - replace (2 * length (g :: guards) + k) with (S (S (2 * length guards + k)))
      by (cbn [length]; lia).
    cbn [run_fulfilled advance settle phase nav set_phase].
    rewrite IH, !emit_emit. reflexivity.
Qed.

Lemma run_fulfilled_next (fuel : nat) (env : Env) (n : Navigation) (s s' : Stage)
    (k : nat) (st : Router) :
  next_stage s = Some s' →
  run_fulfilled (S k) fuel env st {| nav := n; phase := Queue s [] |}
  = run_fulfilled k fuel env st
      {| nav := n; phase := Queue s' (stage_guards st (toLocation n) (from n) s') |}.
Proof. intros Hs. cbn [run_fulfilled advance phase nav set_phase]. by rewrite Hs. Qed.

Lemma stage_guards_emit (st : Router) (evs : list Event) (to from : RouteLocation) (s : Stage) :
  stage_guards (emit st evs) to from s = stage_guards st to from s.
Proof. destruct s; reflexivity. Qed.

(** The six queues, written on the matched chains. *)
Lemma stage_guards_spelled (st : Router) (to from : RouteLocation) :
  let leaving := filter (.∉ matched to) (matched from) in
  let updating := filter (.∈ matched to) (matched from) in
  let reused := filter (.∈ matched from) (matched to) in
  let entering := filter (.∉ matched from) (matched to) in
  stage_guards st to from LeaveGuards
  = extractComponentsGuards st (reverse leaving) beforeRouteLeave
    ++ flat_map (λ r, leaveGuards (record_at st r)) leaving
  ∧ stage_guards st to from GlobalBefore = beforeGuards st
  ∧ stage_guards st to from UpdateGuards
    = extractComponentsGuards st reused beforeRouteUpdate
      ++ flat_map (λ r, updateGuards (record_at st r)) updating
  ∧ stage_guards st to from BeforeEnterGuards
    = flat_map (λ r, beforeEnter_guards (record_at st r)) entering
  ∧ stage_guards st to from EnterGuards = extractComponentsGuards st entering beforeRouteEnter
  ∧ stage_guards st to from GlobalBeforeResolve = beforeResolveGuards st.
Proof.
  cbn zeta. unfold stage_guards, extractChangingRecords. cbn [fst snd].
  rewrite !leaving_filter, updating_filter.
  replace (filter (λ record, (indexOf (matched from) record > -1)%Z) (matched to))
    with (filter (.∈ matched from) (matched to))
    by (apply list_filter_iff; intros x; by rewrite indexOf_present).
  repeat split; try reflexivity.
  rewrite <- (flat_map_filter (.∉ matched from)).
  apply flat_map_ext. intros r.
  destruct (decide (indexOf (matched from) r < 0)%Z) as [Hlt|Hge], (decide (r ∉ matched from));
    try reflexivity; exfalso; rewrite indexOf_absent in *; tauto.
Qed.

(** The whole chain of [navigate], from a first queue [q], when every guard
    is fulfilled: [k] more reactions are left for what follows. *)
Lemma run_fulfilled_navigate (fuel : nat) (env : Env) (st : Router) (n : Navigation)
    (q : list Guard) (k : nat) :
  let later := stage_guards st (toLocation n) (from n) in
  let all := q ++ later GlobalBefore ++ later UpdateGuards ++ later BeforeEnterGuards
             ++ later EnterGuards ++ later GlobalBeforeResolve in
  run_fulfilled (2 * length all + 6 + k) fuel env st {| nav := n; phase := Queue LeaveGuards q |}
  = run_fulfilled k fuel env
      (emit st (guard_events (ref (toLocation n)) (ref (from n)) all))
      {| nav := n; phase := Caught None |}.
Proof.
  cbn zeta. set (later := stage_guards st (toLocation n) (from n)).
  replace (2 * length (q ++ later GlobalBefore ++ later UpdateGuards ++ later BeforeEnterGuards
                       ++ later EnterGuards ++ later GlobalBeforeResolve) + 6 + k)
    with (2 * length q + S (2 * length (later GlobalBefore)
          + S (2 * length (later UpdateGuards) + S (2 * length (later BeforeEnterGuards)
          + S (2 * length (later EnterGuards) + S (2 * length (later GlobalBeforeResolve)
          + S k))))))
    by (rewrite !length_app; lia).
  do 5 (rewrite run_fulfilled_queue; erewrite run_fulfilled_next by reflexivity;
        rewrite stage_guards_emit; fold later).
  rewrite run_fulfilled_queue.
  cbn [run_fulfilled advance phase nav set_phase next_stage].
  rewrite !emit_emit. unfold guard_events. rewrite !flat_map_app, <- !app_assoc.
  reflexivity.
Qed.

(** C1: a navigation from [from] to [to] whose guards are all fulfilled calls,
    in this order and one at a time (each call follows the settlement of the
    previous guard): the [beforeRouteLeave] guards of the components of the
    leaving records, leaf to root, then the [leaveGuards] of the leaving
    records; the [beforeEach] guards in registration order; the
    [beforeRouteUpdate] guards of the components of the records in both
    chains, then their [updateGuards]; the [beforeEnter] guards (one or an
    array, all of them) of the entering records only; the [beforeRouteEnter]
    guards of the components of the entering records; the [beforeResolve]
    guards.  After the last one the chain of [navigate] is fulfilled. *)
Theorem navigate_guard_order (fuel : nat) (env : Env) (st : Router) (n : Navigation) :
  let to := toLocation n in
  let from := from n in
  let leaving := filter (.∉ matched to) (matched from) in
  let updating := filter (.∈ matched to) (matched from) in
  let reused := filter (.∈ matched from) (matched to) in
  let entering := filter (.∉ matched from) (matched to) in
  let stage1 := extractComponentsGuards st (reverse leaving) beforeRouteLeave
                ++ flat_map (λ r, leaveGuards (record_at st r)) leaving in
  let stage2 := beforeGuards st in
  let stage3 := extractComponentsGuards st reused beforeRouteUpdate
                ++ flat_map (λ r, updateGuards (record_at st r)) updating in
  let stage4 := flat_map (λ r, beforeEnter_guards (record_at st r)) entering in
  let stage5 := extractComponentsGuards st entering beforeRouteEnter in
  let stage6 := beforeResolveGuards st in
  let all := stage1 ++ stage2 ++ stage3 ++ stage4 ++ stage5 ++ stage6 in
  stage_guards st to from LeaveGuards = stage1
  ∧ run_fulfilled (2 * length all + 6) fuel env st {| nav := n; phase := Queue LeaveGuards stage1 |}
    = Some (emit st (guard_events (ref to) (ref from) all),
            Pending {| nav := n; phase := Caught None |}).
Proof.
  cbn zeta.
  destruct (stage_guards_spelled st (toLocation n) (from n)) as (H1 & H2 & H3 & H4 & H5 & H6).
  cbn zeta in *. split; [exact H1|].
  rewrite <- H2, <- H3, <- H4, <- H5, <- H6.
  rewrite <- (Nat.add_0_r (2 * length _ + 6)).
  rewrite (run_fulfilled_navigate fuel env st n). reflexivity.
Qed.

(** The order on the sample table, leaving [/parent/child] for [/foo]. *)
Example guard_order_on_sample :
  let from := mkRouteLocation 1 "/parent/child" "/parent/child" None ∅ ∅ "" [7; 8] ∅ "" None in
  let to := mkRouteLocation 2 "/foo" "/foo" None ∅ ∅ "" [2] ∅ "" None in
  map (stage_guards Sample.router0 to from)
    [LeaveGuards; GlobalBefore; UpdateGuards; BeforeEnterGuards; EnterGuards; GlobalBeforeResolve]
  = [ ["Foo.beforeRouteLeave"; "Foo.beforeRouteLeave"];
      ["beforeEach1"; "beforeEach2"];
      [];
      ["foo.beforeEnter"];
      ["Foo.beforeRouteEnter"];
      ["beforeResolve1"] ].
Proof. vm_compute. reflexivity. Qed.

(** ** What the synchronous part changes *)

Lemma retargeted_id (st : Router) : retargeted st (nextRef st) (pendingLocation st) [] = st.
Proof. destruct st. unfold retargeted, emit, set_log. simpl. by rewrite app_nil_r. Qed.


Lemma pushWithRedirect_state (env : Env) (fuel : nat) :
  ∀ (st : Router) (to : RouteLocationRaw) (rf : option RouteLocation) (st' : Router) (s : Started),
    pushWithRedirect fuel env st to rf = Some (st', s) →
    ∃ n p evs,
      st' = retargeted st n p evs
      ∧ nextRef st ≤ n
      ∧ (p = pendingLocation st ∨ nextRef st ≤ p < n)
      ∧ Forall sync_event evs
      ∧ match s with
        | Threw e => e = MatcherError
        | Returned (Settled r) => r = Rejected (PlainError "Invalid redirect") ∧ DEV env = true
        | Returned (Pending t) =>
            ref (toLocation (nav t)) = p ∧ nextRef st ≤ p < n
            ∧ from (nav t) = currentRoute st
            ∧ phase_wf (phase t)
        end.
Proof.
  induction fuel as [|fuel IH]; intros st to rf st' s Hp; [discriminate|].
  destruct (resolve env st to None) as [[target st1]|] eqn:Hres.
  2:{ cbn [pushWithRedirect] in Hp. rewrite Hres in Hp. injection Hp as <- <-.
      exists (nextRef st), (pendingLocation st), []. rewrite retargeted_id.
      repeat split; auto; constructor. }
  destruct (resolve_inv _ _ _ _ _ _ Hres) as (-> & Href & Hrf).
  destruct (leaf_redirect st target) as [rd|] eqn:Hrd.
  - rewrite (pushWithRedirect_redirect _ _ _ _ _ _ _ _ Hres Hrd) in Hp.
    destruct (DEV env && _ && _) eqn:Hdev.
    + injection Hp as <- <-.
      exists (S (nextRef st)), (ref target), [EvWarn "Invalid redirect found"].
      split; [reflexivity|]. split; [lia|]. split; [right; lia|].
      split; [by repeat constructor|].
      split; [done|]. destruct (DEV env); [done | discriminate].
    + apply IH in Hp as (n & p & evs & -> & Hn & Hpn & Hevs & Hs).
      cbn [nextRef set_pendingLocation set_nextRef pendingLocation] in Hn, Hpn.
      exists n, p, evs. split; [reflexivity|]. split; [lia|]. split; [lia|]. split; [done|].
      destruct s as [e|[t|r]]; try done.
      cbn [nextRef set_pendingLocation set_nextRef currentRoute] in Hs.
      destruct Hs as (? & ? & ? & ?). repeat split; try done; lia.
  - rewrite (pushWithRedirect_navigate _ _ _ _ _ _ _ Hres Hrd) in Hp.
    rewrite handleScroll_emit in Hp.
    destruct (negb _ && _); injection Hp as <- <-.
    + exists (S (nextRef st)), (ref target), (handleScroll_events env (currentRoute st) (currentRoute st) true false).
      split; [reflexivity|]. split; [lia|]. split; [right; lia|]. split.
      { unfold handleScroll_events. destruct (negb _ || _); by repeat constructor. }
      cbn. destruct target; cbn in *. repeat split; try done; try lia.
      unfold recognized. cbn. tauto.
    + exists (S (nextRef st)), (ref target), [].
      split; [unfold retargeted; by rewrite emit_nil|]. split; [lia|]. split; [right; lia|].
      split; [constructor|]. cbn. destruct target; cbn in *. repeat split; try done; lia.
Qed.

(** ** Readiness *)













(** On the sample: [isReady()] before the first navigation is fulfilled when
    [/foo] commits; if instead a guard of that navigation throws, it is
    rejected with the error, and a later navigation that commits leaves it
    rejected. *)
Example isReady_sample :
  (λ w : World, settled (router w) !! 0)
  <$> run 5 Sample.env Sample.world0
        ([AIsReady; APush (RawString "/foo")] ++ Sample.fulfil_all 0 12)
  = Some (Some Fulfilled)
  ∧ (λ w : World, (settled (router w) !! 0, path (currentRoute (router w))))
    <$> run 5 Sample.env Sample.world0
          ([AIsReady; APush (RawString "/foo"); AAdvance 0; AAdvance 0;
            ASettle 0 (RejectedWith (PlainError "boom")); APush (RawString "/x")]
           ++ Sample.fulfil_all 1 12)
    = Some (Some (RejectedWith (PlainError "boom")), "/x").
Proof. split; vm_compute; reflexivity. Qed.

(** ** How the promise of [push] settles *)

Lemma settle_inv (st : Router) (t : Task) (s : Settlement) (st' : Router) (o : Outcome) :
  settle st t s = (st', o) →
  (st' = st ∧ o = Pending t ∧ ∀ stage g rest, phase t ≠ Awaiting stage g rest)
  ∨ ∃ stage g rest,
      phase t = Awaiting stage g rest
      ∧ let settled_event := EvGuardSettled g (ref (toLocation (nav t))) (ref (from (nav t))) s in
        match s with
        | Fulfilled => st' = emit st [settled_event] ∧ o = Pending (set_phase t (Queue stage rest))
        | RejectedWith e =>
            (pendingLocation st ≠ ref (toLocation (nav t))
             ∧ st' = emit st [settled_event]
             ∧ o = Pending (set_phase t (Caught (Some (NavigationFailure NAVIGATION_CANCELLED
                                                          (from (nav t)) (toLocation (nav t)))))))
            ∨ (pendingLocation st = ref (toLocation (nav t))
               ∧ (error_type e = Some NAVIGATION_ABORTED
                  ∨ error_type e = Some NAVIGATION_GUARD_REDIRECT)
               ∧ st' = emit st [settled_event]
               ∧ o = Pending (set_phase t (Caught (Some e))))
            ∨ (pendingLocation st = ref (toLocation (nav t))
               ∧ error_type e ≠ Some NAVIGATION_ABORTED
               ∧ error_type e ≠ Some NAVIGATION_GUARD_REDIRECT
               ∧ st' = triggerError (emit st [settled_event]) e
               ∧ o = Settled (Rejected e))
        end.
Proof.
  unfold settle. destruct (phase t) as [stage guards|stage g rest|failure] eqn:Hph.
  - intros [= <- <-]. left. done.
  - intros Hs. right. exists stage, g, rest. split; [done|]. cbn zeta.
    destruct s as [|e]; [by injection Hs as <- <-|].
    unfold catch_handler in Hs. cbn [pendingLocation emit set_log] in Hs.
    destruct (decide (pendingLocation st = ref (toLocation (nav t)))) as [Hp|Hp].
    + rewrite (bool_decide_eq_true_2 _ Hp) in Hs. cbn [negb] in Hs.
      destruct (decide (error_type e = Some NAVIGATION_ABORTED)) as [Ha|Ha];
        [rewrite (bool_decide_eq_true_2 _ Ha) in Hs; injection Hs as <- <-; right; left; auto|].
      rewrite (bool_decide_eq_false_2 _ Ha) in Hs.
      destruct (decide (error_type e = Some NAVIGATION_GUARD_REDIRECT)) as [Hg|Hg];
        [rewrite (bool_decide_eq_true_2 _ Hg) in Hs; injection Hs as <- <-; right; left; auto|].
      rewrite (bool_decide_eq_false_2 _ Hg) in Hs. injection Hs as <- <-.
      right; right. auto.
    + rewrite (bool_decide_eq_false_2 _ Hp) in Hs. injection Hs as <- <-. left. auto.
  - intros [= <- <-]. left. done.
Qed.

Lemma triggerError_log (st : Router) (e : RouterError) :
  log (triggerError st e) = log st ++ map (λ handler, EvErrorHandler handler e) (errorHandlers st).
Proof.
  unfold triggerError.
  destruct (markAsReady_fields st (Some e)) as (_ & _ & _ & _ & _ & Hl & _ & _ & _ & He & _).
  cbn [emit set_log log]. by rewrite Hl, He.
Qed.





(** ** [replace] *)









(** On the sample, from [/foo]: [push('/x')] and [replace('/x')] run the same
    guards and commit the same path; the one pushes, the other replaces. *)
Example replace_sample :
  Sample.from_foo (APush (RawString "/x"))
  = Some ("/x",
          ["Foo.beforeRouteLeave"; "setup:leave"; "beforeEach1"; "beforeEach2"; "beforeResolve1"],
          Some ("push", "/x"))
  ∧ Sample.from_foo (AReplace (RawString "/x"))
    = Some ("/x",
            ["Foo.beforeRouteLeave"; "setup:leave"; "beforeEach1"; "beforeEach2"; "beforeResolve1"],
            Some ("replace", "/x")).
Proof. split; vm_compute; reflexivity. Qed.

(** ** A navigation that was superseded *)

Lemma superseded_retargeted (st : Router) (l : RouteLocation) (n p : LocRef) (evs : list Event) :
  superseded st l → nextRef st ≤ n → (p = pendingLocation st ∨ nextRef st ≤ p < n) →
  superseded (retargeted st n p evs) l.
Proof.
  intros (Hp & Hn & Hc & Hh) Hle Hpn. unfold superseded, retargeted. cbn.
  split_and!; try done; lia.
Qed.

Lemma superseded_triggerError (st : Router) (l : RouteLocation) (e : RouterError) :
  superseded st l → superseded (triggerError st e) l.
Proof.
  intros H. unfold triggerError, superseded. cbn.
  destruct (markAsReady_fields st (Some e)) as (-> & -> & -> & _ & -> & _). exact H.
Qed.

Lemma finalizeNavigation_fields (env : Env) (st : Router) (to from : RouteLocation)
    (replace : bool) (data : option HistoryState) :
  pendingLocation st = ref to →
  let st' := (finalizeNavigation env st to from true replace data).1 in
  pendingLocation st' = pendingLocation st
  ∧ nextRef st' = nextRef st
  ∧ currentRoute st' = to
  ∧ ∃ c, routerHistory st' = routerHistory st ++ [c] ∧ call_target c = ref to.
Proof.
  intros Hp. unfold finalizeNavigation. rewrite bool_decide_eq_true_2 by done.
  cbn [negb fst]. rewrite handleScroll_emit.
  match goal with |- context [markAsReady ?s None] =>
    destruct (markAsReady_fields s None) as (-> & -> & -> & _ & -> & _) end.
  destruct (replace || _); cbn; split_and!; try done; eexists; split; reflexivity.
Qed.

Lemma advance_superseded (env : Env) (fuel : nat) (st : Router) (t : Task) (st' : Router)
    (o : Outcome) (l : RouteLocation) :
  superseded st l → advance fuel env st t = Some (st', o) →
  superseded st' l ∧ routerHistory st `prefix_of` routerHistory st'.
Proof.
  intros Hsup Ha. unfold advance in Ha.
  destruct (phase t) as [stage [|g rest]|stage g rest|[f|]].
  - destruct (next_stage stage); by simplify_eq.
  - by simplify_eq.
  - by simplify_eq.
  - unfold then_handler in Ha. destruct (bool_decide _).
    + destruct (pushWithRedirect _ _ _ _ _) as [[st2 s]|] eqn:Hp; [|discriminate].
      apply pushWithRedirect_state in Hp as (n & p & evs & -> & Hn & Hpn & _).
      assert (st' = retargeted st n p evs) as -> by (destruct s; by simplify_eq).
      split; [by apply superseded_retargeted | reflexivity].
    + by simplify_eq.
  - unfold then_handler in Ha.
    destruct (decide (pendingLocation st = ref (toLocation (nav t)))) as [Hp|Hp].
    + destruct (finalizeNavigation_fields env st (toLocation (nav t)) (from (nav t))
                  (replace_flag (nav t)) (data (nav t)) Hp) as (H1 & H2 & H3 & c & H4 & H5).
      destruct (finalizeNavigation _ _ _ _ _ _ _) as [st2 failure]. cbn [fst] in *.
      injection Ha as <- <-. destruct Hsup as (Hpl & Hn & Hc & Hh).
      unfold superseded, triggerAfterEach. cbn. rewrite H1, H2, H3, H4.
      split; [|by apply prefix_app_r].
      split_and!; try done; try congruence.
      apply Forall_app. split; [done|]. constructor; [congruence | constructor].
    + rewrite finalizeNavigation_cancelled in Ha by done. by simplify_eq.
Qed.

Lemma settle_superseded (st : Router) (t : Task) (s : Settlement) (st' : Router)
    (o : Outcome) (l : RouteLocation) :
  superseded st l → settle st t s = (st', o) →
  superseded st' l ∧ routerHistory st' = routerHistory st.
Proof.
  intros Hsup Hs. apply settle_inv in Hs as [(-> & _) | (stage & g & rest & _ & Hs)]; [done|].
  cbn zeta in Hs. destruct s as [|e]; [by destruct Hs as [-> _]|].
  destruct Hs as [(_ & -> & _) | [(_ & _ & -> & _) | (_ & _ & _ & -> & _)]]; try done.
  split; [by apply superseded_triggerError|].
  unfold triggerError. cbn.
  by destruct (markAsReady_fields (emit st [EvGuardSettled g (ref (toLocation (nav t)))
                 (ref (from (nav t))) (RejectedWith e)]) (Some e)) as (_ & _ & _ & _ & -> & _).
Qed.

(** The reactions of a superseded navigation itself: they only add to the
    log, and the navigation goes on through its guards or ends cancelled. *)
Lemma advance_losing (env : Env) (fuel : nat) (st : Router) (t : Task) (st' : Router)
    (o : Outcome) :
  pendingLocation st ≠ ref (toLocation (nav t)) → guarding (nav t) (phase t) →
  advance fuel env st t = Some (st', o) →
  (∃ evs, st' = emit st evs)
  ∧ match o with
    | Pending t' => nav t' = nav t ∧ guarding (nav t) (phase t')
    | Settled r => r = cancelled (nav t)
    end.
Proof.
  intros Hp Hg Ha. unfold advance in Ha.
  destruct (phase t) as [stage [|g rest]|stage g rest|[f|]] eqn:Hph.
  - destruct (next_stage stage); simplify_eq; (split; [exists []; by rewrite emit_nil | done]).
  - simplify_eq. split; [eauto | done].
  - simplify_eq. split; [exists []; by rewrite emit_nil|]. by rewrite Hph.
  - cbn in Hg. subst f. unfold then_handler in Ha.
    rewrite bool_decide_eq_false_2 in Ha by discriminate. injection Ha as <- <-.
    split; [unfold triggerAfterEach; eauto | reflexivity].
  - unfold then_handler in Ha. rewrite finalizeNavigation_cancelled in Ha by done.
    injection Ha as <- <-. split; [unfold triggerAfterEach; eauto | reflexivity].
Qed.

Lemma settle_losing (st : Router) (t : Task) (s : Settlement) (st' : Router) (o : Outcome) :
  pendingLocation st ≠ ref (toLocation (nav t)) → guarding (nav t) (phase t) →
  settle st t s = (st', o) →
  (∃ evs, st' = emit st evs)
  ∧ match o with
    | Pending t' => nav t' = nav t ∧ guarding (nav t) (phase t')
    | Settled r => r = cancelled (nav t)
    end.
Proof.
  intros Hp Hg Hs. apply settle_inv in Hs as [(-> & -> & _) | (stage & g & rest & _ & Hs)].
  - split; [exists []; by rewrite emit_nil | done].
  - cbn zeta in Hs. destruct s as [|e]; [destruct Hs as [-> ->]; split; [eauto | done]|].
    destruct Hs as [(_ & -> & ->) | [(Hp' & _) | (Hp' & _)]]; try done.
    split; [eauto | done].
Qed.

Lemma in_flight_Some (w : World) (id : nat) (t : Task) :
  in_flight w id = Some t ↔ calls w !! id = Some (Returned (Pending t)).
Proof.
  unfold in_flight. destruct (calls w !! id) as [[e|[t'|r]]|]; split; intros H; by simplify_eq.
Qed.

Lemma losing_other (w : World) (a id : nat) (n : Navigation) (st : Router) (o : Outcome) :
  id ≠ a → losing w a n →
  losing {| router := st; calls := <[id := Returned o]> (calls w) |} a n.
Proof. intros Hne. unfold losing. cbn. by rewrite list_lookup_insert_ne. Qed.

Lemma losing_own (w : World) (a : nat) (t : Task) (st : Router) (o : Outcome) :
  calls w !! a = Some (Returned (Pending t)) →
  match o with
  | Pending t' => nav t' = nav t ∧ guarding (nav t) (phase t')
  | Settled r => r = cancelled (nav t)
  end →
  losing {| router := st; calls := <[a := Returned o]> (calls w) |} a (nav t).
Proof.
  intros Hl Ho. unfold losing. cbn.
  rewrite list_lookup_insert_eq by (by eapply lookup_lt_Some).
  destruct o as [t'|r]; [left; exists t' | right]; naive_solver.
Qed.

Lemma step_losing (env : Env) (fuel : nat) (w : World) (act : Action) (w' : World)
    (a : nat) (n : Navigation) :
  superseded (router w) (toLocation n) → losing w a n →
  step fuel env w act = Some w' →
  superseded (router w') (toLocation n) ∧ losing w' a n
  ∧ routerHistory (router w) `prefix_of` routerHistory (router w').
Proof.
  intros Hsup Hlose Hstep.
  assert (Hsync : ∀ to rf st s,
            pushWithRedirect fuel env (router w) to rf = Some (st, s) →
            superseded st (toLocation n)
            ∧ losing {| router := st; calls := calls w ++ [s] |} a n
            ∧ routerHistory (router w) `prefix_of` routerHistory st).
  { intros to rf st s Hp.
    apply pushWithRedirect_state in Hp as (k & p & evs & -> & Hk & Hpk & _).
    split; [by apply superseded_retargeted|]. split; [|reflexivity].
    unfold losing in *. cbn.
    destruct Hlose as [(t & Hl & Ht) | Hl]; [left; exists t | right];
      rewrite lookup_app_l by (by eapply lookup_lt_Some); done. }
  destruct act as [to|to|id|id s| | | | |]; cbn in Hstep.
  - unfold push in Hstep.
    destruct (pushWithRedirect _ _ _ _ _) as [[st s]|] eqn:Hp; simplify_eq/=. eauto.
  - unfold replace, push in Hstep.
    destruct (pushWithRedirect _ _ _ _ _) as [[st s]|] eqn:Hp; simplify_eq/=. eauto.
  - destruct (in_flight w id) as [t|] eqn:Hfl;
      [|simplify_eq; split_and!; [done | done | reflexivity]].
    destruct (advance _ _ _ _) as [[st o]|] eqn:Ha; simplify_eq/=.
    destruct (advance_superseded _ _ _ _ _ _ _ Hsup Ha) as [Hsup' Hpre].
    split; [done|]. split; [|done].
    destruct (decide (id = a)) as [->|Hne]; [|by apply losing_other].
    apply in_flight_Some in Hfl.
    destruct Hlose as [(t0 & Hl & <- & Hg) | Hl]; [|congruence].
    assert (t0 = t) as -> by congruence.
    apply losing_own; [done|].
    eapply advance_losing; [|exact Hg|exact Ha]. apply Hsup.
  - destruct (in_flight w id) as [t|] eqn:Hfl;
      [|simplify_eq; split_and!; [done | done | reflexivity]].
    destruct (settle _ _ _) as [st o] eqn:Hs. simplify_eq/=.
    destruct (settle_superseded _ _ _ _ _ _ Hsup Hs) as [Hsup' Hh].
    split; [done|]. split; [|by rewrite Hh].
    destruct (decide (id = a)) as [->|Hne]; [|by apply losing_other].
    apply in_flight_Some in Hfl.
    destruct Hlose as [(t0 & Hl & <- & Hg) | Hl]; [|congruence].
    assert (t0 = t) as -> by congruence.
    apply losing_own; [done|].
    eapply settle_losing; [|exact Hg|exact Hs]. apply Hsup.
  - simplify_eq/=. split_and!; [|done|].
    + unfold isReady. by destruct (ready (router w) && _).
    + unfold isReady. by destruct (ready (router w) && _).
  - simplify_eq/=. split_and!; [done | done | reflexivity].
  - simplify_eq/=. split_and!; [done | done | reflexivity].
  - simplify_eq/=. split_and!; [done | done | reflexivity].
  - simplify_eq/=. split_and!; [done | done | reflexivity].
Qed.

Lemma run_losing (env : Env) (fuel : nat) (acts : list Action) :
  ∀ (w w' : World) (a : nat) (n : Navigation),
    superseded (router w) (toLocation n) → losing w a n →
    run fuel env w acts = Some w' →
    superseded (router w') (toLocation n) ∧ losing w' a n
    ∧ routerHistory (router w) `prefix_of` routerHistory (router w').
Proof.
  induction acts as [|act acts IH]; intros w w' a n Hsup Hlose Hrun.
  - simplify_eq/=. split_and!; [done | done | reflexivity].
  - cbn in Hrun. destruct (step fuel env w act) as [w1|] eqn:Hstep; [|done]. cbn in Hrun.
    destruct (step_losing _ _ _ _ _ _ _ Hsup Hlose Hstep) as (Hsup1 & Hlose1 & Hpre1).
    destruct (IH _ _ _ _ Hsup1 Hlose1 Hrun) as (Hsup' & Hlose' & Hpre').
    split_and!; [done | done | by etrans].
Qed.

(** With its guards fulfilled a superseded navigation does come to an end,
    cancelled: from the end of [navigate], from any queue, from any guard. *)
Lemma drain_caught (env : Env) (fuel : nat) (n : Navigation) (st : Router) :
  pendingLocation st ≠ ref (toLocation n) →
  ∃ evs, run_fulfilled 1 fuel env st {| nav := n; phase := Caught None |}
         = Some (emit st evs, Settled (cancelled n)).
Proof.
  intros Hp. cbn [run_fulfilled advance phase nav]. unfold then_handler. cbn [nav].
  rewrite finalizeNavigation_cancelled by done. unfold triggerAfterEach. eauto.
Qed.

Lemma drain_queue (env : Env) (fuel : nat) (n : Navigation) (stage : Stage) :
  ∀ (q : list Guard) (st : Router),
    pendingLocation st ≠ ref (toLocation n) →
    ∃ k evs, run_fulfilled k fuel env st {| nav := n; phase := Queue stage q |}
             = Some (emit st evs, Settled (cancelled n)).
Proof.
  assert (Hlast : ∀ q st, pendingLocation st ≠ ref (toLocation n) →
            ∃ k evs, run_fulfilled k fuel env st {| nav := n; phase := Queue GlobalBeforeResolve q |}
                     = Some (emit st evs, Settled (cancelled n))).
  { intros q st Hp. exists (2 * length q + 2).
    rewrite run_fulfilled_queue.
    change (run_fulfilled 2 fuel env ?s {| nav := n; phase := Queue GlobalBeforeResolve [] |})
      with (run_fulfilled 1 fuel env s {| nav := n; phase := Caught None |}).
    destruct (drain_caught env fuel n (emit st (guard_events (ref (toLocation n)) (ref (from n)) q)) Hp)
      as [evs ->].
    rewrite emit_emit. eauto. }
  assert (Hnext : ∀ s s', next_stage s = Some s' →
            (∀ q st, pendingLocation st ≠ ref (toLocation n) →
               ∃ k evs, run_fulfilled k fuel env st {| nav := n; phase := Queue s' q |}
                        = Some (emit st evs, Settled (cancelled n))) →
            ∀ q st, pendingLocation st ≠ ref (toLocation n) →
               ∃ k evs, run_fulfilled k fuel env st {| nav := n; phase := Queue s q |}
                        = Some (emit st evs, Settled (cancelled n))).
  { intros s s' Hs IH q st Hp.
    set (st1 := emit st (guard_events (ref (toLocation n)) (ref (from n)) q)).
    destruct (IH (stage_guards st1 (toLocation n) (from n) s') st1 Hp) as (k & evs & Hk).
    exists (2 * length q + S k). rewrite run_fulfilled_queue. fold st1.
    rewrite (run_fulfilled_next _ _ _ _ _ _ _ Hs), Hk. unfold st1. rewrite emit_emit. eauto. }
  pose proof (Hnext EnterGuards _ eq_refl Hlast) as H5.
  pose proof (Hnext BeforeEnterGuards _ eq_refl H5) as H4.
  pose proof (Hnext UpdateGuards _ eq_refl H4) as H3.
  pose proof (Hnext GlobalBefore _ eq_refl H3) as H2.
  pose proof (Hnext LeaveGuards _ eq_refl H2) as H1.
  destruct stage; assumption.
Qed.

Lemma drain (env : Env) (fuel : nat) (st : Router) (t : Task) :
  pendingLocation st ≠ ref (toLocation (nav t)) → guarding (nav t) (phase t) →
  ∃ k evs, run_fulfilled k fuel env st t = Some (emit st evs, Settled (cancelled (nav t))).
Proof.
  intros Hp Hg. destruct t as [n ph]. cbn [nav phase] in *.
  destruct ph as [stage q|stage g rest|[f|]].
  - by apply drain_queue.
  - set (st1 := emit st [EvGuardSettled g (ref (toLocation n)) (ref (from n)) Fulfilled]).
    destruct (drain_queue env fuel n stage rest st1 Hp) as (k & evs & Hk).
    exists (S k).
    change (run_fulfilled (S k) fuel env st {| nav := n; phase := Awaiting stage g rest |})
      with (run_fulfilled k fuel env st1 {| nav := n; phase := Queue stage rest |}).
    rewrite Hk. unfold st1. rewrite emit_emit. eauto.
  - cbn in Hg. subst f. exists 1. cbn [run_fulfilled advance phase nav]. unfold then_handler.
    rewrite bool_decide_eq_false_2 by discriminate. unfold triggerAfterEach. eauto.
  - exists 1. by apply drain_caught.
Qed.

(** The navigation that holds the pending token commits when its guards are
    fulfilled. *)
Lemma pending_navigation_commits (env : Env) (fuel : nat) (st : Router) (n : Navigation)
    (q : list Guard) :
  pendingLocation st = ref (toLocation n) →
  let later := stage_guards st (toLocation n) (from n) in
  let all := q ++ later GlobalBefore ++ later UpdateGuards ++ later BeforeEnterGuards
             ++ later EnterGuards ++ later GlobalBeforeResolve in
  ∃ st',
    run_fulfilled (2 * length all + 6 + 1) fuel env st {| nav := n; phase := Queue LeaveGuards q |}
    = Some (st', Settled (Resolved None))
    ∧ currentRoute st' = toLocation n
    ∧ ∃ c, routerHistory st' = routerHistory st ++ [c] ∧ call_target c = ref (toLocation n).
Proof.
  intros Hp. cbn zeta. rewrite (run_fulfilled_navigate fuel env st n q 1).
  cbn [run_fulfilled advance phase nav]. unfold then_handler. cbn [nav].
  match goal with |- context [finalizeNavigation env ?s ?a ?b ?c ?d ?e] =>
    destruct (finalizeNavigation_commit env s a b c d e Hp) as (Hnone & _);
    destruct (finalizeNavigation_fields env s a b d e Hp) as (_ & _ & Hcur & c0 & Hh & Hc);
    destruct (finalizeNavigation env s a b c d e) as [st2 failure] end.
  cbn [fst snd] in *. subst failure. eexists. split; [reflexivity|].
  unfold triggerAfterEach. cbn. eauto.
Qed.

(** C2, as stated, fails on the remaining guards: on the sample, [push('/x')]
    is superseded by [push('/y')] while [beforeEach1] is awaited; when that
    guard is fulfilled the navigation to [/x] (location 1) still calls
    [beforeEach2], and then [beforeResolve1], before it ends cancelled. *)
Lemma superseded_navigation_runs_remaining_guards :
  Sample.observe <$> run 5 Sample.env Sample.world0 Sample.race
  = Some (2, [("beforeEach1", 1)], "/", ["pending"; "pending"], [])
  ∧ Sample.observe
    <$> run 5 Sample.env Sample.world0 (Sample.race ++ [ASettle 0 Fulfilled; AAdvance 0])
    = Some (2, [("beforeEach1", 1); ("beforeEach2", 1)], "/", ["pending"; "pending"], [])
  ∧ Sample.observe
    <$> run 5 Sample.env Sample.world0
          (Sample.race ++ Sample.fulfil_all 0 12 ++ Sample.fulfil_all 1 12)
    = Some (2,
            [("beforeEach1", 1); ("beforeEach2", 1); ("beforeResolve1", 1);
             ("beforeEach1", 2); ("beforeEach2", 2); ("beforeResolve1", 2)],
            "/y", ["cancelled"; "committed"], [2]).
Proof. split_and!; vm_compute; reflexivity. Qed.

(** C2, amended: let navigation A be in flight, on its way through its guards,
    and let a newer [push] start navigation B.  Then B holds the pending
    token, and whatever is done afterwards, in any order, A is either still in
    flight or settled as NAVIGATION_CANCELLED; its target is never the current
    route and never the subject of a history call, and the history calls
    already made stay.  A's own reactions only add to the log - it still calls
    its remaining guards.  With its guards fulfilled A does end, cancelled;
    [finalizeNavigation] on A's target returns NAVIGATION_CANCELLED and leaves
    the router alone.  B, if its guards are fulfilled, commits: its target is
    the current route and the subject of one more history call. *)
Theorem superseded_navigation_is_cancelled (env : Env) (fuel : nat) (w : World) (a : nat)
    (tA : Task) (toB : RouteLocationRaw) (w1 : World) (tB : Task) :
  in_flight w a = Some tA →
  guarding (nav tA) (phase tA) →
  ref (toLocation (nav tA)) < nextRef (router w) →
  ref (currentRoute (router w)) ≠ ref (toLocation (nav tA)) →
  Forall (λ c, call_target c ≠ ref (toLocation (nav tA))) (routerHistory (router w)) →
  step fuel env w (APush toB) = Some w1 →
  in_flight w1 (length (calls w)) = Some tB →
  let nA := nav tA in
  let nB := nav tB in
  pendingLocation (router w1) = ref (toLocation nB)
  ∧ superseded (router w1) (toLocation nA)
  ∧ (∀ acts w',
       run fuel env w1 acts = Some w' →
       losing w' a nA ∧ superseded (router w') (toLocation nA)
       ∧ routerHistory (router w1) `prefix_of` routerHistory (router w'))
  ∧ (∀ st t st' o,
       nav t = nA → guarding nA (phase t) → pendingLocation st ≠ ref (toLocation nA) →
       advance fuel env st t = Some (st', o) ∨ (∃ s, settle st t s = (st', o)) →
       ∃ evs, st' = emit st evs)
  ∧ (∀ st, pendingLocation st ≠ ref (toLocation nA) →
       ∃ k evs, run_fulfilled k fuel env st tA = Some (emit st evs, Settled (cancelled nA)))
  ∧ (∀ st isPush,
       pendingLocation st ≠ ref (toLocation nA) →
       finalizeNavigation env st (toLocation nA) (from nA) isPush (replace_flag nA) (data nA)
       = (st, Some (NavigationFailure NAVIGATION_CANCELLED (from nA) (toLocation nA))))
  ∧ (∀ q, phase tB = Queue LeaveGuards q →
       ∃ k st',
         run_fulfilled k fuel env (router w1) tB = Some (st', Settled (Resolved None))
         ∧ currentRoute st' = toLocation nB
         ∧ ∃ c, routerHistory st' = routerHistory (router w1) ++ [c]
                ∧ call_target c = ref (toLocation nB)).
Proof.
  intros HA Hg Href Hcur Hhist Hstep HB. cbn zeta.
  cbn in Hstep. unfold push in Hstep.
  destruct (pushWithRedirect fuel env (router w) toB None) as [[st s]|] eqn:Hp; [|done].
  cbn in Hstep. injection Hstep as <-.
  apply in_flight_Some in HA, HB. cbn in HB.
  rewrite lookup_app_r, Nat.sub_diag in HB by done. cbn in HB. injection HB as ->.
  apply pushWithRedirect_state in Hp as (n & p & evs & -> & Hn & Hpn & _ & HtB & Hrange & _).
  cbn [router].
  assert (Hsup : superseded (retargeted (router w) n p evs) (toLocation (nav tA))).
  { unfold superseded, retargeted. cbn. split_and!; try done; lia. }
  assert (Hlose : losing {| router := retargeted (router w) n p evs;
                             calls := calls w ++ [Returned (Pending tB)] |} a (nav tA)).
  { left. exists tA. cbn. rewrite lookup_app_l by (by eapply lookup_lt_Some). done. }
  split; [by rewrite HtB|]. split; [done|]. split; [|split; [|split; [|split]]].
  - intros acts w' Hrun.
    eapply (run_losing env fuel acts _ _ a (nav tA)) in Hrun as (H1 & H2 & H3);
      [done | exact Hsup | exact Hlose].
  - intros st t st' o Hnav Hgt Hpend [Ha | [s Hs]].
    + rewrite <- Hnav in Hgt, Hpend. by destruct (advance_losing _ _ _ _ _ _ Hpend Hgt Ha).
    + rewrite <- Hnav in Hgt, Hpend. by destruct (settle_losing _ _ _ _ _ Hpend Hgt Hs).
  - intros st Hpend. by apply drain.
  - intros st isPush Hpend. by apply finalizeNavigation_cancelled.
  - intros q Hq.
    assert (tB = {| nav := nav tB; phase := Queue LeaveGuards q |}) as HtB'
      by (destruct tB; cbn in *; by subst).
    destruct (pending_navigation_commits env fuel (retargeted (router w) n p evs) (nav tB) q)
      as (st' & Hrun & Hc & Hh); [by rewrite HtB|].
    rewrite <- HtB' in Hrun. eauto.
Qed.

Lemma superseded_navigation_is_cancelled_witness :
  ∃ w0 w1 tA,
    run 5 Sample.env Sample.world0 [APush (RawString "/x"); AAdvance 0; AAdvance 0] = Some w0
    ∧ step 5 Sample.env w0 (APush (RawString "/y")) = Some w1
    ∧ in_flight w0 0 = Some tA
    ∧ superseded (router w1) (toLocation (nav tA))
    ∧ ∀ acts w', run 5 Sample.env w1 acts = Some w' → losing w' 0 (nav tA).
Proof.
  destruct (run 5 Sample.env Sample.world0 [APush (RawString "/x"); AAdvance 0; AAdvance 0])
    as [w0|] eqn:Hw0; [|vm_compute in Hw0; discriminate].
  destruct (step 5 Sample.env w0 (APush (RawString "/y"))) as [w1|] eqn:Hw1;
    [|vm_compute in Hw0; injection Hw0 as <-; vm_compute in Hw1; discriminate].
  destruct (in_flight w0 0) as [tA|] eqn:HA;
    [|vm_compute in Hw0; injection Hw0 as <-; vm_compute in HA; discriminate].
  destruct (in_flight w1 (length (calls w0))) as [tB|] eqn:HB;
    [|vm_compute in Hw0; injection Hw0 as <-; vm_compute in Hw1; injection Hw1 as <-;
      vm_compute in HB; discriminate].
  exists w0, w1, tA. split; [done|]. split; [done|]. split; [done|].
  destruct (superseded_navigation_is_cancelled Sample.env 5 w0 0 tA (RawString "/y") w1 tB)
    as (_ & Hsup & Hall & _); try done.
  - vm_compute in Hw0. injection Hw0 as <-. vm_compute in HA. injection HA as <-. exact I.
  - vm_compute in Hw0. injection Hw0 as <-. vm_compute in HA. injection HA as <-.
    vm_compute. lia.
  - vm_compute in Hw0. injection Hw0 as <-. vm_compute in HA. injection HA as <-.
    vm_compute. lia.
  - vm_compute in Hw0. injection Hw0 as <-. constructor.
  - split; [exact Hsup|]. intros acts w' Hrun. by destruct (Hall acts w' Hrun).
Defined.

(** ** Two more runs on the sample *)

(** [replace('/foo')] whose first guard redirects to the route named [login]
    (path [/x]): the navigation restarts on [/x], commits there by a
    replacement, and [redirectedFrom] is the location of [/foo]. *)
Example guard_redirect_on_sample :
  (λ w : World,
     (Sample.observe w, path <$> redirectedFrom (currentRoute (router w)),
      match last (routerHistory (router w)) with
      | Some (HistoryReplace l _) => Some ("replace", path l)
      | Some (HistoryPush l _) => Some ("push", path l)
      | None => None
      end))
  <$> run 5 Sample.env Sample.world0
        ([AReplace (RawString "/foo"); AAdvance 0; AAdvance 0;
          ASettle 0 (RejectedWith (NavigationRedirectError Sample.login)); AAdvance 0]
         ++ Sample.fulfil_all 0 12)
  = Some ((2, [("beforeEach1", 1); ("beforeEach1", 2); ("beforeEach2", 2); ("beforeResolve1", 2)],
           "/x", ["committed"], [2]),
          Some "/foo", Some ("replace", "/x")).
Proof. vm_compute. reflexivity. Qed.

(** From [/foo], [push('/x')] whose [beforeRouteLeave] guard aborts: no
    [beforeEach] guard is called, the current route stays, and the promise is
    fulfilled with the NAVIGATION_ABORTED failure. *)
Example guard_abort_on_sample :
  (λ w : World,
     (Sample.observe w,
      map (λ c, match c with
                | Returned (Settled (Resolved (Some f))) => error_type f
                | _ => None
                end) (calls w)))
  <$> run 5 Sample.env {| router := Sample.at_foo; calls := [] |}
        [APush (RawString "/x"); AAdvance 0;
         ASettle 0 (RejectedWith (NavigationFailure NAVIGATION_ABORTED
                                    Sample.foo_location Sample.foo_location));
         AAdvance 0]
  = Some ((2, [("Foo.beforeRouteLeave", 2)], "/foo", ["failed"], []),
          [Some NAVIGATION_ABORTED]).
Proof. vm_compute. reflexivity. Qed.

(** ** The invariant of a router driven by [push] and [replace] *)

Lemma markAsReady_ready (st : Router) (err : option RouterError) :
  ready (markAsReady st err) = true.
Proof. unfold markAsReady. by destruct (ready st) eqn:H. Qed.

Lemma history_location_snoc (h : list HistoryCall) (c : HistoryCall) :
  history_location (h ++ [c]) = call_location c.
Proof. unfold history_location. by rewrite last_snoc. Qed.

(** A commit, spelled out. *)
Lemma finalizeNavigation_history (env : Env) (st : Router) (to from : RouteLocation)
    (replace : bool) (data : option HistoryState) :
  pendingLocation st = ref to →
  let isFirstNavigation := bool_decide (ref from = ref START_LOCATION_NORMALIZED) in
  let st' := (finalizeNavigation env st to from true replace data).1 in
  routerHistory st'
  = routerHistory st
    ++ [if replace || isFirstNavigation
        then HistoryReplace to (default ∅ data ∪ {[ "scroll" := first_scroll env isFirstNavigation ]})
        else HistoryPush to data]
  ∧ ready st' = true
  ∧ (finalizeNavigation env st to from true replace data).2 = None.
Proof.
  intros Hp. unfold finalizeNavigation. rewrite bool_decide_eq_true_2 by done.
  cbn [negb fst snd]. rewrite handleScroll_emit.
  split_and!; [|apply markAsReady_ready|done].
  match goal with |- context [markAsReady ?s None] =>
    destruct (markAsReady_fields s None) as (_ & _ & _ & _ & -> & _) end.
  by destruct (replace || _).
Qed.

Lemma router_coherent_retargeted (st : Router) (n p : LocRef) (evs : list Event) :
  router_coherent st → nextRef st ≤ n → (p = pendingLocation st ∨ nextRef st ≤ p < n) →
  router_coherent (retargeted st n p evs).
Proof.
  intros (H1 & H2 & H3 & H4 & H5 & H6) Hn Hp. unfold router_coherent, retargeted. cbn.
  split_and!; try done; try lia.
  eapply Forall_impl; [exact H4|]. cbn. intros c ?. lia.
Qed.

Lemma task_coherent_retargeted (st : Router) (t : Task) (n p : LocRef) (evs : list Event) :
  task_coherent st t → nextRef st ≤ n → (p = pendingLocation st ∨ nextRef st ≤ p < n) →
  task_coherent (retargeted st n p evs) t.
Proof.
  intros (H1 & H2) Hn Hp. unfold task_coherent, retargeted. cbn.
  split; [lia|]. intros Heq. apply H2. lia.
Qed.

Lemma retargeted_emit (st : Router) (evs : list Event) :
  emit st evs = retargeted st (nextRef st) (pendingLocation st) evs.
Proof. by destruct st. Qed.

Lemma router_coherent_emit (st : Router) (evs : list Event) :
  router_coherent st → router_coherent (emit st evs).
Proof. intros H. rewrite retargeted_emit. apply router_coherent_retargeted; auto. Qed.

Lemma task_coherent_emit (st : Router) (t : Task) (evs : list Event) :
  task_coherent st t → task_coherent (emit st evs) t.
Proof. intros H. rewrite retargeted_emit. apply task_coherent_retargeted; auto. Qed.

Lemma triggerError_fields (st : Router) (e : RouterError) :
  currentRoute (triggerError st e) = currentRoute st
  ∧ pendingLocation (triggerError st e) = pendingLocation st
  ∧ nextRef (triggerError st e) = nextRef st
  ∧ routerHistory (triggerError st e) = routerHistory st
  ∧ ready (triggerError st e) = true.
Proof.
  unfold triggerError. cbn.
  destruct (markAsReady_fields st (Some e)) as (-> & -> & -> & _ & -> & _).
  by rewrite markAsReady_ready.
Qed.

Lemma router_coherent_triggerError (st : Router) (e : RouterError) :
  router_coherent st → router_coherent (triggerError st e).
Proof.
  intros (H1 & H2 & H3 & H4 & H5 & H6). unfold router_coherent.
  destruct (triggerError_fields st e) as (-> & -> & -> & -> & ->). done.
Qed.

Lemma task_coherent_triggerError (st : Router) (t : Task) (e : RouterError) :
  task_coherent st t → task_coherent (triggerError st e) t.
Proof.
  intros H. unfold task_coherent.
  by destruct (triggerError_fields st e) as (-> & -> & -> & _).
Qed.

(** Replacing the outcome of call [id], or adding a call, under a new state
    of the router that keeps the other navigations coherent. *)
Lemma coherent_update (w : World) (id : nat) (st : Router) (s : Started) :
  coherent w →
  nextRef (router w) ≤ nextRef st →
  router_coherent st →
  (∀ id' t', id' ≠ id → in_flight w id' = Some t' → task_coherent st t') →
  match s with
  | Returned (Pending t) =>
      task_coherent st t
      ∧ ((∃ t0, in_flight w id = Some t0 ∧ ref (toLocation (nav t)) = ref (toLocation (nav t0)))
         ∨ nextRef (router w) ≤ ref (toLocation (nav t)))
  | _ => True
  end →
  ∀ cs, (cs = <[id := s]> (calls w) ∧ id < length (calls w))
        ∨ (cs = calls w ++ [s] ∧ id = length (calls w)) →
  coherent {| router := st; calls := cs |}.
Proof.
  intros (HR & HT & HU) Hn HR' HT' Hs cs Hcs.
  assert (Hother : ∀ id' t', id' ≠ id →
            in_flight {| router := st; calls := cs |} id' = Some t' → in_flight w id' = Some t').
  { intros id' t' Hne. rewrite !in_flight_Some. cbn.
    destruct Hcs as [[-> _]|[-> ->]].
    - by rewrite list_lookup_insert_ne.
    - intros Hl. assert (id' < length (calls w ++ [s])) as Hlt by (by eapply lookup_lt_Some).
      rewrite length_app in Hlt. cbn in Hlt. rewrite lookup_app_l in Hl by lia. done. }
  assert (Hown : ∀ t, in_flight {| router := st; calls := cs |} id = Some t → s = Returned (Pending t)).
  { intros t. rewrite in_flight_Some. cbn. destruct Hcs as [[-> Hlt]|[-> ->]].
    - rewrite list_lookup_insert_eq by done. congruence.
    - rewrite lookup_app_r, Nat.sub_diag by done. cbn. congruence. }
  assert (Hold : ∀ id' t', in_flight w id' = Some t' → ref (toLocation (nav t')) < nextRef (router w)).
  { intros id' t' Hf. destruct (HT _ _ Hf) as [? _]. lia. }
  split; [done|]. split.
  - intros id' t Hf. destruct (decide (id' = id)) as [->|Hne].
    + apply Hown in Hf. subst s. apply Hs.
    + eapply HT'; [exact Hne|]. by apply Hother.
  - intros i j t t' Hi Hj Heq.
    destruct (decide (i = id)) as [->|Hi'], (decide (j = id)) as [->|Hj']; [done| | |].
    + apply Hown in Hi. subst s. apply Hother in Hj; [|done].
      destruct Hs as [_ [(t0 & Ht0 & Hr)|Hr]].
      * exfalso. apply Hj'. symmetry. eapply HU; [exact Ht0|exact Hj|congruence].
      * apply Hold in Hj. lia.
    + apply Hown in Hj. subst s. apply Hother in Hi; [|done].
      destruct Hs as [_ [(t0 & Ht0 & Hr)|Hr]].
      * exfalso. apply Hi'. eapply HU; [exact Hi|exact Ht0|congruence].
      * apply Hold in Hi. lia.
    + apply Hother in Hi, Hj; try done. eauto.
Qed.

Lemma coherent_fields (w : World) (st : Router) :
  coherent w →
  nextRef st = nextRef (router w) → pendingLocation st = pendingLocation (router w) →
  currentRoute st = currentRoute (router w) → routerHistory st = routerHistory (router w) →
  (ready (router w) = true → ready st = true) →
  coherent {| router := st; calls := calls w |}.
Proof.
  intros ((H1 & H2 & H3 & H4 & H5 & H6) & HT & HU) Hn Hp Hc Hh Hr.
  unfold coherent, router_coherent, task_coherent, in_flight in *. cbn [router calls].
  rewrite Hn, Hp, Hc, Hh. split_and!; auto.
Qed.

Lemma sync_coherent (env : Env) (fuel : nat) (w : World) (to : RouteLocationRaw)
    (rf : option RouteLocation) (st : Router) (s : Started) (id : nat) (cs : list Started) :
  coherent w →
  pushWithRedirect fuel env (router w) to rf = Some (st, s) →
  (cs = <[id := s]> (calls w) ∧ id < length (calls w))
  ∨ (cs = calls w ++ [s] ∧ id = length (calls w)) →
  coherent {| router := st; calls := cs |}.
Proof.
  intros Hw Hp Hcs. assert (Hw' := Hw). destruct Hw' as (HR & HT & HU).
  apply pushWithRedirect_state in Hp as (n & p & evs & -> & Hn & Hpn & _ & Hs).
  eapply (coherent_update w id _ s); [done | exact Hn | | | | exact Hcs].
  - by apply router_coherent_retargeted.
  - intros id' t' _ Hf. apply task_coherent_retargeted; eauto.
  - destruct s as [e|[t|r]]; [done| |done].
    destruct Hs as (Href & Hrange & Hfrom & _).
    destruct HR as (Hpos & _).
    split; [|right; lia].
    unfold task_coherent, retargeted. cbn. split; [lia | done].
Qed.

Lemma advance_coherent (env : Env) (fuel : nat) (w : World) (id : nat) (t : Task)
    (st : Router) (o : Outcome) :
  coherent w → in_flight w id = Some t →
  advance fuel env (router w) t = Some (st, o) →
  coherent {| router := st; calls := <[id := Returned o]> (calls w) |}.
Proof.
  intros Hw Hf Ha. assert (Hw' := Hw). destruct Hw' as (HR & HT & HU).
  assert (Hlt : id < length (calls w)).
  { apply in_flight_Some in Hf. by eapply lookup_lt_Some. }
  assert (Hsame : ∀ evs ph,
            coherent {| router := emit (router w) evs;
                        calls := <[id := Returned (Pending (set_phase t ph))]> (calls w) |}).
  { intros evs ph. eapply (coherent_update w id _ (Returned (Pending (set_phase t ph)))); [done | done | | | | left; done].
    - by apply router_coherent_emit.
    - intros id' t' _ Hf'. apply task_coherent_emit; eauto.
    - split; [apply task_coherent_emit; by eapply (HT id t) | left; eauto]. }
  assert (Hend : ∀ evs r,
            coherent {| router := emit (router w) evs;
                        calls := <[id := Returned (Settled r)]> (calls w) |}).
  { intros evs r. eapply (coherent_update w id _ (Returned (Settled r))); [done | done | | | exact I | left; done].
    - by apply router_coherent_emit.
    - intros id' t' _ Hf'. apply task_coherent_emit; eauto. }
  unfold advance in Ha.
  destruct (phase t) as [stage [|g rest]|stage g rest|[f|]] eqn:Hph.
  - destruct (next_stage stage) as [s'|]; simplify_eq.
    + specialize (Hsame [] (Queue s' (stage_guards (router w) (toLocation (nav t)) (from (nav t)) s'))).
      by rewrite emit_nil in Hsame.
    + specialize (Hsame [] (Caught None)). by rewrite emit_nil in Hsame.
  - simplify_eq. apply Hsame.
  - simplify_eq. specialize (Hsame [] (Awaiting stage g rest)). rewrite emit_nil in Hsame.
    destruct t as [n ph]. cbn in *. by subst ph.
  - unfold then_handler in Ha. destruct (bool_decide _).
    + destruct (pushWithRedirect _ _ _ _ _) as [[st2 s]|] eqn:Hp; [|discriminate].
      destruct s as [e|o2]; simplify_eq.
      * apply pushWithRedirect_state in Hp as (n & p & evs & -> & Hn & Hpn & _ & Hs).
        eapply (coherent_update w id _ (Returned (Settled (Rejected e)))); [done | exact Hn | | | exact I | left; done].
        -- by apply router_coherent_retargeted.
        -- intros id' t' _ Hf'. apply task_coherent_retargeted; eauto.
      * eapply sync_coherent; [done | exact Hp | left; done].
    + simplify_eq. apply Hend.
  - unfold then_handler in Ha.
    destruct (decide (pendingLocation (router w) = ref (toLocation (nav t)))) as [Hp|Hp].
    2:{ rewrite finalizeNavigation_cancelled in Ha by done. simplify_eq. apply Hend. }
    destruct (finalizeNavigation_fields env (router w) (toLocation (nav t)) (from (nav t))
                (replace_flag (nav t)) (data (nav t)) Hp) as (H1 & H2 & H3 & _).
    destruct (finalizeNavigation_history env (router w) (toLocation (nav t)) (from (nav t))
                (replace_flag (nav t)) (data (nav t)) Hp) as (Hh & Hready & Hnone).
    destruct (finalizeNavigation _ _ _ _ _ _ _) as [st2 failure]. cbn [fst snd] in *.
    subst failure. injection Ha as <- <-. unfold triggerAfterEach.
    destruct (HT _ _ Hf) as (Hrange & Hfrom). specialize (Hfrom Hp).
    destruct HR as (R1 & R2 & R3 & R4 & R5 & R6).
    eapply (coherent_update w id _ (Returned (Settled (Resolved None)))); [done | cbn; lia | | | exact I | left; done].
    + apply router_coherent_emit. unfold router_coherent. rewrite H1, H2, H3, Hh, Hready.
      set (c := if _ || _ then _ else _).
      assert (Hc : call_location c = toLocation (nav t)) by (unfold c; by destruct (_ || _)).
      assert (Hc' : call_target c = ref (toLocation (nav t))) by (unfold c; by destruct (_ || _)).
      split_and!; try done.
      * by rewrite history_location_snoc.
      * apply Forall_app. split; [done|]. constructor; [lia | constructor].
      * intros c0. destruct (routerHistory (router w)) as [|c1 h] eqn:Hhist.
        -- cbn. intros [= <-]. unfold c.
           rewrite Hfrom, R3. cbn. by rewrite orb_true_r.
        -- cbn. intros [= <-]. apply R5. done.
    + intros id' t' Hne Hf'. destruct (HT _ _ Hf') as (Hrange' & _).
      apply task_coherent_emit. unfold task_coherent. rewrite H1, H2. split; [done|].
      intros Heq. exfalso. apply Hne. eapply HU; [exact Hf' | exact Hf | congruence].
Qed.

Lemma settle_coherent (w : World) (id : nat) (t : Task) (s : Settlement)
    (st : Router) (o : Outcome) :
  coherent w → in_flight w id = Some t →
  settle (router w) t s = (st, o) →
  coherent {| router := st; calls := <[id := Returned o]> (calls w) |}.
Proof.
  intros Hw Hf Hs. assert (Hw' := Hw). destruct Hw' as (HR & HT & HU).
  assert (Hlt : id < length (calls w)).
  { apply in_flight_Some in Hf. by eapply lookup_lt_Some. }
  assert (Hsame : ∀ evs ph,
            coherent {| router := emit (router w) evs;
                        calls := <[id := Returned (Pending (set_phase t ph))]> (calls w) |}).
  { intros evs ph. eapply (coherent_update w id _ (Returned (Pending (set_phase t ph)))); [done | done | | | | left; done].
    - by apply router_coherent_emit.
    - intros id' t' _ Hf'. apply task_coherent_emit; eauto.
    - split; [apply task_coherent_emit; by eapply (HT id t) | left; eauto]. }
  apply settle_inv in Hs as [(-> & -> & _) | (stage & g & rest & _ & Hs)].
  - specialize (Hsame [] (phase t)). rewrite emit_nil in Hsame. by destruct t.
  - cbn zeta in Hs. destruct s as [|e]; [destruct Hs as [-> ->]; apply Hsame|].
    destruct Hs as [(_ & -> & ->) | [(_ & _ & -> & ->) | (_ & _ & _ & -> & ->)]];
      [apply Hsame | apply Hsame |].
    eapply (coherent_update w id _ (Returned (Settled (Rejected e)))); [done | | | | exact I | left; done].
    + by destruct (triggerError_fields (emit (router w)
                     [EvGuardSettled g (ref (toLocation (nav t))) (ref (from (nav t)))
                        (RejectedWith e)]) e) as (_ & _ & -> & _).
    + by apply router_coherent_triggerError, router_coherent_emit.
    + intros id' t' _ Hf'. apply task_coherent_triggerError, task_coherent_emit; eauto.
Qed.

Lemma step_coherent (env : Env) (fuel : nat) (w : World) (a : Action) (w' : World) :
  coherent w → step fuel env w a = Some w' → coherent w'.
Proof.
  intros Hw Hs. destruct a as [to|to|id|id s| | | | |]; cbn in Hs.
  - unfold push in Hs. destruct (pushWithRedirect _ _ _ _ _) as [[st s]|] eqn:Hp; simplify_eq/=.
    eapply sync_coherent; [done | exact Hp | right; done].
  - unfold replace, push in Hs.
    destruct (pushWithRedirect _ _ _ _ _) as [[st s]|] eqn:Hp; simplify_eq/=.
    eapply sync_coherent; [done | exact Hp | right; done].
  - destruct (in_flight w id) as [t|] eqn:Hf; [|by simplify_eq].
    destruct (advance _ _ _ _) as [[st o]|] eqn:Ha; simplify_eq/=.
    by eapply advance_coherent.
  - destruct (in_flight w id) as [t|] eqn:Hf; [|by simplify_eq].
    destruct (settle _ _ _) as [st o] eqn:Hse. simplify_eq/=.
    by eapply settle_coherent.
  - simplify_eq. apply coherent_fields; try done; unfold isReady; by destruct (ready (router w) && _).
  - simplify_eq. by apply coherent_fields.
  - simplify_eq. by apply coherent_fields.
  - simplify_eq. by apply coherent_fields.
  - simplify_eq. by apply coherent_fields.
Qed.

Lemma run_coherent (env : Env) (fuel : nat) (acts : list Action) :
  ∀ w w', coherent w → run fuel env w acts = Some w' → coherent w'.
Proof.
  induction acts as [|a acts IH]; intros w w' Hw Hr; [by simplify_eq/=|].
  cbn in Hr. destruct (step fuel env w a) as [w1|] eqn:Hs; [|done]. cbn in Hr.
  eapply IH; [|exact Hr]. by eapply step_coherent.
Qed.

Lemma fresh_coherent (st : Router) : fresh st → coherent {| router := st; calls := [] |}.
Proof.
  intros (Hc & Hh & Hn & Hp). unfold coherent, router_coherent, in_flight. cbn.
  rewrite Hc, Hh. split_and!; try done.
Qed.

(** ** What holds in every state reached through [push] and [replace] *)

Lemma fresh_sample : fresh Sample.router0.
Proof. unfold fresh. cbn. split_and!; (reflexivity || lia). Qed.

(** X8: on a router driven by [push] and [replace], whatever the order of the
    reactions, the current route is the location of the last call made on the
    history, and the start location as long as no call was made. *)
Theorem history_shows_current_route (env : Env) (fuel : nat) (st : Router)
    (acts : list Action) (w' : World) :
  fresh st →
  run fuel env {| router := st; calls := [] |} acts = Some w' →
  currentRoute (router w') = history_location (routerHistory (router w')).
Proof.
  intros Hfresh Hrun.
  by destruct (run_coherent env fuel acts _ _ (fresh_coherent st Hfresh) Hrun)
    as ((_ & _ & H & _) & _).
Qed.

Lemma history_shows_current_route_witness :
  ∃ w',
    run 5 Sample.env Sample.world0 (APush (RawString "/x") :: Sample.fulfil_all 0 12) = Some w'
    ∧ path (currentRoute (router w')) = "/x"
    ∧ currentRoute (router w') = history_location (routerHistory (router w')).
Proof.
  destruct (run 5 Sample.env Sample.world0 (APush (RawString "/x") :: Sample.fulfil_all 0 12))
    as [w'|] eqn:Hrun; [|vm_compute in Hrun; discriminate].
  exists w'. split; [reflexivity|]. split.
  - vm_compute in Hrun. injection Hrun as <-. reflexivity.
  - exact (history_shows_current_route Sample.env 5 Sample.router0 _ w' fresh_sample Hrun).
Defined.



(** X10: the navigation that holds the pending token when its guards are
    through commits: it leaves from the route that is current at that moment,
    its target becomes the current route, and it makes one call on the
    history - a replacement when it was asked to replace or no call was made
    before, with the scroll position of the first navigation in the state,
    and a push of its own state otherwise. *)
Theorem commit_in_context (env : Env) (fuel : nat) (st : Router)
    (acts : list Action) (w : World) (id : nat) (t : Task) :
  fresh st →
  run fuel env {| router := st; calls := [] |} acts = Some w →
  in_flight w id = Some t →
  phase t = Caught None →
  pendingLocation (router w) = ref (toLocation (nav t)) →
  let first := bool_decide (length (routerHistory (router w)) = 0) in
  ∃ st',
    advance fuel env (router w) t = Some (st', Settled (Resolved None))
    ∧ from (nav t) = currentRoute (router w)
    ∧ currentRoute st' = toLocation (nav t)
    ∧ routerHistory st'
      = routerHistory (router w)
        ++ [if replace_flag (nav t) || first
            then HistoryReplace (toLocation (nav t))
                   (default ∅ (data (nav t)) ∪ {[ "scroll" := first_scroll env first ]})
            else HistoryPush (toLocation (nav t)) (data (nav t))].
Proof.
  intros Hfresh Hrun Hf Hph Hp. cbn zeta.
  destruct (run_coherent env fuel acts _ _ (fresh_coherent st Hfresh) Hrun)
    as ((_ & _ & Hcur & Hall & _) & HT & _).
  destruct (HT _ _ Hf) as (_ & Hfrom). specialize (Hfrom Hp).
  assert (Hfirst : bool_decide (ref (from (nav t)) = ref START_LOCATION_NORMALIZED)
                   = bool_decide (length (routerHistory (router w)) = 0)).
  { rewrite Hfrom, Hcur. apply bool_decide_ext.
    destruct (routerHistory (router w)) as [|c h _] using rev_ind; [done|].
    rewrite history_location_snoc, length_app. cbn.
    rewrite Forall_app, Forall_singleton in Hall. destruct Hall as [_ Hc].
    assert (ref (call_location c) = call_target c) as -> by (by destruct c).
    split; lia. }
  unfold advance, then_handler. rewrite Hph.
  destruct (finalizeNavigation_fields env (router w) (toLocation (nav t)) (from (nav t))
              (replace_flag (nav t)) (data (nav t)) Hp) as (_ & _ & H3 & _).
  destruct (finalizeNavigation_history env (router w) (toLocation (nav t)) (from (nav t))
              (replace_flag (nav t)) (data (nav t)) Hp) as (Hh & _ & Hnone).
  destruct (finalizeNavigation _ _ _ _ _ _ _) as [st2 failure]. cbn [fst snd] in *.
  subst failure. eexists. split; [reflexivity|]. split; [done|].
  unfold triggerAfterEach. cbn [emit set_log currentRoute routerHistory].
  split; [done|]. by rewrite Hh, Hfirst.
Qed.

Lemma commit_in_context_witness :
  ∃ w t st',
    run 5 Sample.env Sample.world0 (APush (RawString "/x") :: Sample.fulfil_all 0 9) = Some w
    ∧ in_flight w 0 = Some t
    ∧ advance 5 Sample.env (router w) t = Some (st', Settled (Resolved None))
    ∧ path (currentRoute st') = "/x".
Proof.
  destruct (run 5 Sample.env Sample.world0 (APush (RawString "/x") :: Sample.fulfil_all 0 9))
    as [w|] eqn:Hrun; [|vm_compute in Hrun; discriminate].
  destruct (in_flight w 0) as [t|] eqn:Hf;
    [|vm_compute in Hrun; injection Hrun as <-; vm_compute in Hf; discriminate].
  destruct (commit_in_context Sample.env 5 Sample.router0 _ w 0 t fresh_sample Hrun Hf)
    as (st' & Ha & _ & Hc & _).
  - vm_compute in Hrun. injection Hrun as <-. vm_compute in Hf. injection Hf as <-. reflexivity.
  - vm_compute in Hrun. injection Hrun as <-. vm_compute in Hf. injection Hf as <-. reflexivity.
  - exists w, t, st'. split_and!; [reflexivity | exact Hf | exact Ha |].
    rewrite Hc. vm_compute in Hrun. injection Hrun as <-. vm_compute in Hf. injection Hf as <-.
    reflexivity.
Defined.

(** X11: a router that has left the start location is ready, so from then on
    [isReady] returns a promise that is already fulfilled. *)
Theorem ready_after_commit (env : Env) (fuel : nat) (st : Router)
    (acts : list Action) (w' : World) :
  fresh st →
  run fuel env {| router := st; calls := [] |} acts = Some w' →
  ref (currentRoute (router w')) ≠ ref START_LOCATION_NORMALIZED →
  ready (router w') = true
  ∧ settled (isReady (router w')).2 !! (isReady (router w')).1 = Some Fulfilled.
Proof.
  intros Hfresh Hrun Hne.
  destruct (run_coherent env fuel acts _ _ (fresh_coherent st Hfresh) Hrun)
    as ((_ & _ & Hcur & _ & _ & Hready) & _).
  assert (Hr : ready (router w') = true).
  { apply Hready. intros Hnil. apply Hne. by rewrite Hcur, Hnil. }
  split; [done|]. unfold isReady. rewrite Hr, bool_decide_eq_false_2 by done.
  cbn. apply lookup_insert_eq.
Qed.

Lemma ready_after_commit_witness :
  ∃ w',
    run 5 Sample.env Sample.world0 (APush (RawString "/x") :: Sample.fulfil_all 0 12) = Some w'
    ∧ ready (router w') = true.
Proof.
  destruct (run 5 Sample.env Sample.world0 (APush (RawString "/x") :: Sample.fulfil_all 0 12))
    as [w'|] eqn:Hrun; [|vm_compute in Hrun; discriminate].
  exists w'. split; [reflexivity|].
  destruct (ready_after_commit Sample.env 5 Sample.router0 _ w' fresh_sample Hrun) as [Hr _];
    [|exact Hr].
  vm_compute in Hrun. injection Hrun as <-. vm_compute. lia.
Defined.

(** X12: [push] takes the pending token whenever its target resolves -
    also when the navigation turns out duplicated, when a redirect is
    rejected as invalid, and when the call throws after a redirect was
    followed.  Every navigation resolved before is then refused by
    [finalizeNavigation].  When the target does not resolve the call throws
    and the router is as before. *)
Theorem push_takes_token (env : Env) (fuel : nat) (st : Router) (to : RouteLocationRaw)
    (rf : option RouteLocation) (st' : Router) (s : Started) :
  pushWithRedirect fuel env st to rf = Some (st', s) →
  match resolve env st to None with
  | None => st' = st ∧ s = Threw MatcherError
  | Some _ =>
      nextRef st ≤ pendingLocation st' < nextRef st'
      ∧ ∀ l from isPush replace data,
          ref l < nextRef st →
          finalizeNavigation env st' l from isPush replace data
          = (st', Some (NavigationFailure NAVIGATION_CANCELLED from l))
  end.
Proof.
  intros Hp. destruct fuel as [|fuel]; [discriminate|].
  destruct (resolve env st to None) as [[target st1]|] eqn:Hres.
  2:{ cbn [pushWithRedirect] in Hp. rewrite Hres in Hp. by injection Hp as <- <-. }
  assert (Hrange : nextRef st ≤ pendingLocation st' < nextRef st').
  { destruct (resolve_inv _ _ _ _ _ _ Hres) as (-> & Href & _).
    destruct (leaf_redirect st target) as [rd|] eqn:Hrd.
    - rewrite (pushWithRedirect_redirect _ _ _ _ _ _ _ _ Hres Hrd) in Hp.
      destruct (DEV env && _ && _); [injection Hp as <- <-; cbn; lia|].
      apply pushWithRedirect_state in Hp as (n & p & evs & -> & Hn & Hpn & _).
      cbn in *. lia.
    - rewrite (pushWithRedirect_navigate _ _ _ _ _ _ _ Hres Hrd) in Hp.
      rewrite handleScroll_emit in Hp. destruct (negb _ && _); injection Hp as <- <-; cbn; lia. }
  split; [done|]. intros l from isPush replace data Hl.
  apply finalizeNavigation_cancelled. lia.
Qed.

Lemma push_takes_token_witness :
  ∃ st' t,
    push 2 Sample.env Sample.at_foo (RawString "/foo") = Some (st', Returned (Pending t))
    ∧ pendingLocation Sample.at_foo = 1
    ∧ pendingLocation st' = 2.
Proof.
  destruct (push 2 Sample.env Sample.at_foo (RawString "/foo")) as [[st' [e|[t|r]]]|] eqn:Hp;
    try (vm_compute in Hp; discriminate).
  exists st', t. split; [reflexivity|]. split; [reflexivity|].
  pose proof (push_takes_token Sample.env 2 Sample.at_foo (RawString "/foo") None st' _ Hp) as H.
  destruct (resolve Sample.env Sample.at_foo (RawString "/foo") None) as [r|] eqn:Hres;
    [|vm_compute in Hres; discriminate].
  destruct H as [[Hlo Hhi] _].
  assert (nextRef st' = 3) as Hn by (vm_compute in Hp; by injection Hp as <- _).
  change (nextRef Sample.at_foo) with 2 in Hlo. lia.
Defined.

(** ** A promise of [isReady] that never settles *)

Lemma stuck_fields (p : PromiseRef) (st st' : Router) :
  stuck p st →
  ready st' = ready st → readyHandlers st' = readyHandlers st → settled st' = settled st →
  nextPromise st' = nextPromise st →
  stuck p st'.
Proof. unfold stuck. by intros H -> -> -> ->. Qed.

Lemma stuck_retargeted (p : PromiseRef) (st : Router) (n q : LocRef) (evs : list Event) :
  stuck p st → stuck p (retargeted st n q evs).
Proof. intros H. by eapply stuck_fields. Qed.

Lemma stuck_markAsReady (p : PromiseRef) (st : Router) (err : option RouterError) :
  stuck p st → stuck p (markAsReady st err).
Proof.
  intros H. unfold markAsReady. destruct (ready st) eqn:Hr; [done|].
  destruct H as [H _]. congruence.
Qed.

Lemma stuck_finalizeNavigation (p : PromiseRef) (env : Env) (st : Router)
    (to from : RouteLocation) (isPush replace : bool) (data : option HistoryState) :
  stuck p st → stuck p (finalizeNavigation env st to from isPush replace data).1.
Proof.
  intros H. unfold finalizeNavigation. destruct (negb (bool_decide _)); [done|]. cbn [fst].
  apply stuck_markAsReady. rewrite handleScroll_emit.
  rewrite retargeted_emit. apply stuck_retargeted.
  destruct isPush; [destruct (replace || _)|]; exact H.
Qed.

Lemma stuck_advance (p : PromiseRef) (env : Env) (fuel : nat) (st : Router) (t : Task)
    (st' : Router) (o : Outcome) :
  advance fuel env st t = Some (st', o) → stuck p st → stuck p st'.
Proof.
  intros Ha Hk. unfold advance in Ha.
  destruct (phase t) as [stage [|g rest]|stage g rest|failure].
  - destruct (next_stage stage); by simplify_eq.
  - by simplify_eq.
  - by simplify_eq.
  - unfold then_handler in Ha. destruct failure as [f|].
    + destruct (bool_decide _).
      * destruct (pushWithRedirect _ _ _ _ _) as [[st2 s]|] eqn:Hp; [|discriminate].
        apply pushWithRedirect_state in Hp as (n & q & evs & -> & _).
        destruct s; simplify_eq; by apply stuck_retargeted.
      * by simplify_eq.
    + destruct (finalizeNavigation _ _ _ _ _ _ _) as [st2 failure] eqn:Hf.
      injection Ha as <- <-.
      replace st2 with (finalizeNavigation env st (toLocation (nav t)) (from (nav t)) true
                          (replace_flag (nav t)) (data (nav t))).1 by (by rewrite Hf).
      by apply stuck_finalizeNavigation.
Qed.

Lemma stuck_settle (p : PromiseRef) (st : Router) (t : Task) (x : Settlement) (st' : Router)
    (o : Outcome) :
  settle st t x = (st', o) → stuck p st → stuck p st'.
Proof.
  intros Hs Hk. unfold settle in Hs.
  destruct (phase t) as [stage guards|stage g rest|failure]; try by simplify_eq.
  destruct x as [|e]; [by simplify_eq|].
  unfold catch_handler in Hs.
  destruct (negb (bool_decide _)); [by simplify_eq|].
  destruct (_ || _); [by simplify_eq|].
  injection Hs as <- <-. unfold triggerError.
  rewrite retargeted_emit. apply stuck_retargeted, stuck_markAsReady. exact Hk.
Qed.

Lemma stuck_isReady (p : PromiseRef) (st : Router) : stuck p st → stuck p (isReady st).2.
Proof.
  intros (Hr & Hin & Hs & Hlt). unfold isReady, stuck.
  destruct (ready st && _); cbn; split_and!; try done; try lia.
  - rewrite lookup_insert_ne; [done | lia].
  - apply elem_of_app. by left.
Qed.

Lemma stuck_step (p : PromiseRef) (env : Env) (fuel : nat) (w : World) (a : Action) (w' : World) :
  step fuel env w a = Some w' → stuck p (router w) → stuck p (router w').
Proof.
  intros Hs Hk. destruct a; cbn in Hs.
  - unfold push in Hs. destruct (pushWithRedirect _ _ _ _ _) as [[st r]|] eqn:Hp; simplify_eq/=.
    apply pushWithRedirect_state in Hp as (n & q & evs & -> & _). by apply stuck_retargeted.
  - unfold replace, push in Hs.
    destruct (pushWithRedirect _ _ _ _ _) as [[st r]|] eqn:Hp; simplify_eq/=.
    apply pushWithRedirect_state in Hp as (n & q & evs & -> & _). by apply stuck_retargeted.
  - destruct (in_flight w id) as [t|]; [|by simplify_eq].
    destruct (advance _ _ _ _) as [[st o]|] eqn:Ha; simplify_eq/=.
    eapply stuck_advance; eauto.
  - destruct (in_flight w id) as [t|]; [|by simplify_eq].
    destruct (settle _ _ _) as [st o] eqn:Hse. simplify_eq/=.
    eapply stuck_settle; eauto.
  - simplify_eq/=. by apply stuck_isReady.
  - by simplify_eq/=.
  - by simplify_eq/=.
  - by simplify_eq/=.
  - by simplify_eq/=.
Qed.

Lemma stuck_run (p : PromiseRef) (env : Env) (fuel : nat) (acts : list Action) :
  ∀ w w', run fuel env w acts = Some w' → stuck p (router w) → stuck p (router w').
Proof.
  induction acts as [|a acts IH]; intros w w' Hr Hk; [by simplify_eq/=|].
  cbn in Hr. destruct (step fuel env w a) as [w1|] eqn:Hs; [|done].
  cbn in Hr. eapply IH; [exact Hr|]. eapply stuck_step; eauto.
Qed.

(** X13: a router can be ready and still stand at the start location - a
    guard of the first navigation threw, [triggerError] marked the router
    ready.  [isReady] then queues its promise, and whatever happens
    afterwards, also a navigation that commits, the promise is never
    settled. *)
Theorem isReady_never_settles (env : Env) (fuel : nat) (st : Router) (cs : list Started)
    (acts : list Action) (w' : World) :
  ready st = true →
  ref (currentRoute st) = ref START_LOCATION_NORMALIZED →
  settled st !! nextPromise st = None →
  run fuel env {| router := (isReady st).2; calls := cs |} acts = Some w' →
  (isReady st).1 = nextPromise st
  ∧ settled (router w') !! nextPromise st = None
  ∧ ready (router w') = true.
Proof.
  intros Hr Hc Hs Hrun.
  assert (Hk : stuck (nextPromise st) (isReady st).2).
  { unfold isReady, stuck. rewrite Hr, bool_decide_eq_true_2 by done. cbn.
    split_and!; [done | | done | lia]. apply elem_of_app. right. constructor. }
  destruct (stuck_run _ env fuel acts _ _ Hrun Hk) as (H1 & _ & H3 & _).
  split_and!; try done. unfold isReady. by destruct (ready st && _).
Qed.

Lemma isReady_never_settles_witness :
  ∃ w w',
    run 5 Sample.env Sample.world0
      [APush (RawString "/x"); AAdvance 0; AAdvance 0; ASettle 0 (RejectedWith (PlainError "boom"))]
    = Some w
    ∧ run 5 Sample.env {| router := (isReady (router w)).2; calls := calls w |}
        (APush (RawString "/y") :: Sample.fulfil_all 1 12) = Some w'
    ∧ path (currentRoute (router w')) = "/y"
    ∧ settled (router w') !! (isReady (router w)).1 = None.
Proof.
  destruct (run 5 Sample.env Sample.world0
              [APush (RawString "/x"); AAdvance 0; AAdvance 0;
               ASettle 0 (RejectedWith (PlainError "boom"))])
    as [w|] eqn:Hw; [|vm_compute in Hw; discriminate].
  destruct (run 5 Sample.env {| router := (isReady (router w)).2; calls := calls w |}
              (APush (RawString "/y") :: Sample.fulfil_all 1 12))
    as [w'|] eqn:Hw'; [|vm_compute in Hw; injection Hw as <-; vm_compute in Hw'; discriminate].
  exists w, w'. split; [reflexivity|]. split; [exact Hw'|].
  destruct (isReady_never_settles Sample.env 5 (router w) (calls w)
              (APush (RawString "/y") :: Sample.fulfil_all 1 12) w') as (Hp & Hs & _);
    try exact Hw'.
  - vm_compute in Hw. injection Hw as <-. reflexivity.
  - vm_compute in Hw. injection Hw as <-. reflexivity.
  - vm_compute in Hw. injection Hw as <-. reflexivity.
  - split; [|by rewrite Hp].
    vm_compute in Hw. injection Hw as <-. vm_compute in Hw'. injection Hw' as <-. reflexivity.
Defined.

(** ** A navigation that keeps the matched chain *)

Lemma filter_nothing {A} (P : A → Prop) `{∀ x, Decision (P x)} (l : list A) :
  (∀ x, x ∈ l → ¬ P x) → filter P l = [].
Proof.
  induction l as [|a l IH]; intros Hl; [done|].
  rewrite filter_cons_False by (apply Hl; constructor).
  apply IH. intros x Hx. apply Hl. by constructor.
Qed.

Lemma filter_everything {A} (P : A → Prop) `{∀ x, Decision (P x)} (l : list A) :
  (∀ x, x ∈ l → P x) → filter P l = l.
Proof.
  induction l as [|a l IH]; intros Hl; [done|].
  rewrite filter_cons_True by (apply Hl; constructor).
  f_equal. apply IH. intros x Hx. apply Hl. by constructor.
Qed.

(** X19: a navigation whose target matches the same chain of records as the
    route it leaves - only params, query or hash change, or the navigation is
    forced - calls no [beforeRouteLeave] or registered leave guard, no
    [beforeEnter] and no [beforeRouteEnter] guard: between the [beforeEach]
    and the [beforeResolve] guards only the update guards of the chain run.
    When it commits, no record is cleared. *)
Theorem same_chain_navigation (env : Env) (st : Router) (n : Navigation) :
  matched (toLocation n) = matched (from n) →
  let to := toLocation n in
  let from := from n in
  stage_guards st to from LeaveGuards = []
  ∧ stage_guards st to from UpdateGuards
    = extractComponentsGuards st (matched to) beforeRouteUpdate
      ++ flat_map (λ r, updateGuards (record_at st r)) (matched to)
  ∧ stage_guards st to from BeforeEnterGuards = []
  ∧ stage_guards st to from EnterGuards = []
  ∧ (pendingLocation st = ref to →
     ∀ isPush replace data,
       records (finalizeNavigation env st to from isPush replace data).1 = records st).
Proof.
  intros Hm. cbn zeta.
  destruct (stage_guards_spelled st (toLocation n) (from n)) as (H1 & _ & H3 & H4 & H5 & _).
  cbn zeta in *. rewrite H1, H3, H4, H5, Hm.
  assert (Hnone : filter (.∉ matched (from n)) (matched (from n)) = [])
    by (apply filter_nothing; intros x Hx Hn; by apply Hn).
  assert (Hall : filter (.∈ matched (from n)) (matched (from n)) = matched (from n))
    by (by apply filter_everything).
  rewrite Hnone, Hall. split_and!; try done.
  intros Hp isPush replace data. apply map_eq. intros record.
  destruct (finalizeNavigation_commit env st (toLocation n) (from n) isPush replace data Hp)
    as (_ & _ & _ & Hr).
  rewrite Hr, Hm, Hnone. rewrite decide_False; [done | apply not_elem_of_nil].
Qed.

Lemma same_chain_navigation_witness :
  stage_guards Sample.at_foo
    (mkRouteLocation 2 "/foo#a" "/foo" None ∅ ∅ "#a" [2] ∅ "/foo#a" None)
    Sample.foo_location LeaveGuards = []
  ∧ stage_guards Sample.at_foo
      (mkRouteLocation 2 "/foo#a" "/foo" None ∅ ∅ "#a" [2] ∅ "/foo#a" None)
      Sample.foo_location UpdateGuards
    = ["Foo.beforeRouteUpdate"; "setup:update"].
Proof.
  destruct (same_chain_navigation Sample.env Sample.at_foo
              {| toLocation := mkRouteLocation 2 "/foo#a" "/foo" None ∅ ∅ "#a" [2] ∅ "/foo#a" None;
                 from := Sample.foo_location; data := None; force := None;
                 replace_flag := false; nav_redirectedFrom := None |})
    as (Hleave & Hupdate & _); [reflexivity|].
  cbn [toLocation from] in Hleave, Hupdate.
  split; [exact Hleave|]. rewrite Hupdate. vm_compute. reflexivity.
Defined.

(** * The listener on history events *)

Lemma pop_prepend_nil (x : Router * list GoCall * PopOutcome) :
  (let '(st', gos', o) := x in (st', [] ++ gos', o)) = x.
Proof. by destruct x as [[? ?] ?]. Qed.

Lemma pop_run_fulfilled_queue (env : Env) (n : Navigation) (d : Z) (s : Stage) :
  ∀ (guards : list Guard) (k : nat) (st : Router),
    pop_run_fulfilled (2 * length guards + k) env st
      {| task := {| nav := n; phase := Queue s guards |}; delta := d |}
    = pop_run_fulfilled k env
        (emit st (guard_events (ref (toLocation n)) (ref (from n)) guards))
        {| task := {| nav := n; phase := Queue s [] |}; delta := d |}.
Proof.
  induction guards as [|g guards IH]; intros k st.
  - cbn [length guard_events flat_map]. by rewrite emit_nil.
  - replace (2 * length (g :: guards) + k) with (S (S (2 * length guards + k)))
      by (cbn [length]; lia).
    cbn [pop_run_fulfilled pop_advance phase nav task delta set_phase pop_set_phase].
    rewrite !pop_prepend_nil, IH, !emit_emit. reflexivity.
Qed.

Lemma pop_run_fulfilled_next (env : Env) (n : Navigation) (d : Z) (s s' : Stage)
    (k : nat) (st : Router) :
  next_stage s = Some s' →
  pop_run_fulfilled (S k) env st {| task := {| nav := n; phase := Queue s [] |}; delta := d |}
  = pop_run_fulfilled k env st
      {| task := {| nav := n; phase := Queue s' (stage_guards st (toLocation n) (from n) s') |};
         delta := d |}.
Proof.
  intros Hs. cbn [pop_run_fulfilled pop_advance phase nav task delta set_phase pop_set_phase].
  rewrite Hs. by rewrite pop_prepend_nil.
Qed.

(** The chain of [navigate] under the listener is the one under [push]. *)
Lemma pop_run_fulfilled_navigate (env : Env) (st : Router) (n : Navigation) (d : Z)
    (q : list Guard) (k : nat) :
  let later := stage_guards st (toLocation n) (from n) in
  let all := q ++ later GlobalBefore ++ later UpdateGuards ++ later BeforeEnterGuards
             ++ later EnterGuards ++ later GlobalBeforeResolve in
  pop_run_fulfilled (2 * length all + 6 + k) env st
    {| task := {| nav := n; phase := Queue LeaveGuards q |}; delta := d |}
  = pop_run_fulfilled k env
      (emit st (guard_events (ref (toLocation n)) (ref (from n)) all))
      {| task := {| nav := n; phase := Caught None |}; delta := d |}.
Proof.
  cbn zeta. set (later := stage_guards st (toLocation n) (from n)).
  replace (2 * length (q ++ later GlobalBefore ++ later UpdateGuards ++ later BeforeEnterGuards
                       ++ later EnterGuards ++ later GlobalBeforeResolve) + 6 + k)
    with (2 * length q + S (2 * length (later GlobalBefore)
          + S (2 * length (later UpdateGuards) + S (2 * length (later BeforeEnterGuards)
          + S (2 * length (later EnterGuards) + S (2 * length (later GlobalBeforeResolve)
          + S k))))))
    by (rewrite !length_app; lia).
  do 5 (rewrite pop_run_fulfilled_queue; erewrite pop_run_fulfilled_next by reflexivity;
        rewrite stage_guards_emit; fold later).
  rewrite pop_run_fulfilled_queue.
  cbn [pop_run_fulfilled pop_advance phase nav task delta set_phase pop_set_phase next_stage].
  rewrite pop_prepend_nil.
  rewrite !emit_emit. unfold guard_events. rewrite !flat_map_app, <- !app_assoc.
  reflexivity.
Qed.

Lemma history_listener_inv (env : Env) (st : Router) (to_fullPath : string) (d : Z)
    (st1 : Router) (t : PopTask) :
  history_listener env st to_fullPath d = Some (st1, t) →
  ∃ target,
    resolve env st (RawString to_fullPath) None = Some (target, set_nextRef st (S (nextRef st)))
    ∧ ref target = nextRef st
    ∧ st1 = retargeted st (S (nextRef st)) (nextRef st) []
    ∧ t = {| task := {| nav := {| toLocation := target; from := currentRoute st; data := None;
                                  force := None; replace_flag := false;
                                  nav_redirectedFrom := None |};
                        phase := Queue LeaveGuards
                                   (stage_guards st1 target (currentRoute st) LeaveGuards) |};
             delta := d |}.
Proof.
  unfold history_listener. intros H.
  destruct (resolve env st (RawString to_fullPath) None) as [[target st0]|] eqn:Hres; [|done].
  destruct (resolve_inv _ _ _ _ _ _ Hres) as (-> & Href & _).
  cbn in H. injection H as <- <-. exists target.
  split; [done|]. split; [done|]. rewrite Href. unfold retargeted. rewrite emit_nil.
  split; reflexivity.
Qed.

(** X14: a navigation started by the history runs the six guard queues of
    [navigate], and when every guard is fulfilled it commits: its target
    becomes the current route and the router is ready; the afterEach hooks
    are called without a failure.  Nothing is pushed or replaced on the
    history, and the history is not taken back. *)
Theorem pop_navigation_commits (env : Env) (st : Router) (to_fullPath : string) (d : Z)
    (st1 : Router) (t : PopTask) :
  history_listener env st to_fullPath d = Some (st1, t) →
  let to := toLocation (nav (task t)) in
  let guards := stage_guards st1 to (currentRoute st) in
  let all := guards LeaveGuards ++ guards GlobalBefore ++ guards UpdateGuards
             ++ guards BeforeEnterGuards ++ guards EnterGuards ++ guards GlobalBeforeResolve in
  let first := bool_decide (ref (currentRoute st) = ref START_LOCATION_NORMALIZED) in
  ∃ st',
    pop_run_fulfilled (2 * length all + 6 + 1) env st1 t = (st', [], PopDone None)
    ∧ from (nav (task t)) = currentRoute st
    ∧ fullPath to = pu_fullPath (parseURL env to_fullPath (path (currentRoute st)))
    ∧ currentRoute st' = to
    ∧ ready st' = true
    ∧ routerHistory st' = routerHistory st
    ∧ log st' = log st ++ guard_events (ref to) (ref (currentRoute st)) all
                ++ handleScroll_events env to (currentRoute st) false first
                ++ map (λ hook, EvAfterEach hook (ref to) (ref (currentRoute st)) None)
                       (afterGuards st).
Proof.
  intros Hl. cbn zeta.
  destruct (history_listener_inv _ _ _ _ _ _ Hl) as (target & Hres & Href & -> & ->).
  cbn [task nav toLocation from].
  set (st1 := retargeted st (S (nextRef st)) (nextRef st) []).
  pose proof (pop_run_fulfilled_navigate env st1
                {| toLocation := target; from := currentRoute st; data := None; force := None;
                   replace_flag := false; nav_redirectedFrom := None |} d
                (stage_guards st1 target (currentRoute st) LeaveGuards) 1) as Hnav.
  cbn [toLocation from] in Hnav. rewrite Hnav. clear Hnav.
  cbn [pop_run_fulfilled pop_advance phase nav task delta toLocation from].
  unfold pop_then_handler. cbn [phase nav task delta toLocation from].
  set (st2 := emit _ _).
  assert (Hp : pendingLocation st2 = ref target) by (cbn; lia).
  unfold finalizeNavigation. rewrite bool_decide_eq_true_2 by done. cbn [negb].
  rewrite handleScroll_emit.
  match goal with |- context [markAsReady ?s None] =>
    pose proof (markAsReady_ready s None) as Hready;
    destruct (markAsReady_fields s None) as (Hc & _ & _ & _ & Hh & Hlog & _ & _ & Ha & _);
    set (st3 := markAsReady s None) in * end.
  eexists. split; [reflexivity|]. split; [reflexivity|]. split.
  { unfold resolve in Hres. cbn in Hres.
    destruct (matcher_resolve env _ _); cbn in Hres; [|done]. by injection Hres as <-. }
  unfold triggerAfterEach. cbn [emit set_log currentRoute ready routerHistory log afterGuards].
  rewrite Hc, Hh, Hlog, Ha, Hready. cbn. rewrite <- !app_assoc. done.
Qed.

Lemma pop_navigation_commits_witness :
  ∃ st1 t k st',
    history_listener Sample.env Sample.at_foo "/x" 1 = Some (st1, t)
    ∧ pop_run_fulfilled k Sample.env st1 t = (st', [], PopDone None)
    ∧ path (currentRoute st') = "/x"
    ∧ routerHistory st' = [].
Proof.
  destruct (history_listener Sample.env Sample.at_foo "/x" 1) as [[st1 t]|] eqn:Hl;
    [|vm_compute in Hl; discriminate].
  destruct (pop_navigation_commits Sample.env Sample.at_foo "/x" 1 st1 t Hl)
    as (st' & Hrun & _ & _ & Hc & _ & Hh & _).
  eexists st1, t, _, st'. split; [reflexivity|]. split; [exact Hrun|].
  rewrite Hc, Hh. split; [|reflexivity].
  vm_compute in Hl. injection Hl as <- <-. reflexivity.
Defined.




(** X16: when a guard of a navigation started by the history redirects, and
    the navigation still holds the pending token, the listener takes the
    history back by [go(-delta, false)] and hands the guard's target to
    [pushWithRedirect] with the target of the interrupted navigation as
    origin: what follows is an ordinary [push] navigation, with the options
    of the guard's target, whose location has that origin as
    [redirectedFrom].  The chain of the listener ends there. *)
Theorem pop_guard_redirect (fuel : nat) (env : Env) (st : Router) (t : PopTask)
    (stage : Stage) (g : Guard) (rest : list Guard) (target : RouteLocationRaw)
    (r : Router * list GoCall * PopOutcome) :
  phase (task t) = Awaiting stage g rest →
  pendingLocation st = ref (toLocation (nav (task t))) →
  pop_settle fuel env st t (RejectedWith (NavigationRedirectError target)) = Some r →
  let n := nav (task t) in
  let st0 := emit st [EvGuardSettled g (ref (toLocation n)) (ref (from n))
                        (RejectedWith (NavigationRedirectError target))] in
  ∃ st' s,
    pushWithRedirect fuel env st0 target (Some (toLocation n)) = Some (st', s)
    ∧ r = (st', [((- delta t)%Z, false)], PopDone (Some s))
    ∧ match s with
      | Returned (Pending t2) =>
          redirectedFrom (toLocation (nav t2)) = Some (toLocation n)
          ∧ from (nav t2) = currentRoute st
          ∧ data (nav t2) = raw_state target
          ∧ force (nav t2) = raw_force target
          ∧ replace_flag (nav t2) = raw_replace target
      | _ => True
      end.
Proof.
  intros Hph Hp Hs. cbn zeta. unfold pop_settle in Hs. rewrite Hph in Hs.
  unfold pop_catch_handler in Hs. cbn [pendingLocation emit set_log] in Hs.
  rewrite (bool_decide_eq_true_2 _ Hp) in Hs. cbn [negb] in Hs.
  rewrite bool_decide_eq_false_2 in Hs by discriminate.
  rewrite bool_decide_eq_true_2 in Hs by reflexivity.
  cbn [failure_to] in Hs.
  destruct (pushWithRedirect _ _ _ _ _) as [[st' s]|] eqn:Hpush; [|discriminate].
  cbn in Hs. injection Hs as <-.
  exists st', s. split; [reflexivity|]. split; [reflexivity|].
  destruct s as [e|[t2|res]]; try exact I.
  destruct (pushWithRedirect_origin _ _ _ _ _ _ _ Hpush) as (_ & Ho & Hd & Hf & Hr).
  apply pushWithRedirect_state in Hpush as (k & p & evs & _ & _ & _ & _ & _ & _ & Hfrom & _).
  split_and!; done.
Qed.

Lemma pop_guard_redirect_witness :
  ∃ st1 t0 st2 t st' s,
    history_listener Sample.env Sample.at_foo "/x" 1 = Some (st1, t0)
    ∧ pop_advance Sample.env st1 t0 = (st2, [], PopPending t)
    ∧ pop_settle 5 Sample.env st2 t (RejectedWith (NavigationRedirectError Sample.login))
      = Some (st', [((-1)%Z, false)], PopDone (Some s)).
Proof.
  destruct (history_listener Sample.env Sample.at_foo "/x" 1) as [[st1 t0]|] eqn:Hl;
    [|vm_compute in Hl; discriminate].
  destruct (pop_advance Sample.env st1 t0) as [[st2 gos] [t|sp]] eqn:Ha;
    [|vm_compute in Hl; injection Hl as <- <-; vm_compute in Ha; discriminate].
  destruct (pop_settle 5 Sample.env st2 t (RejectedWith (NavigationRedirectError Sample.login)))
    as [r|] eqn:Hs;
    [|vm_compute in Hl; injection Hl as <- <-; vm_compute in Ha; injection Ha as <- <- <-;
      vm_compute in Hs; discriminate].
  assert (Hfacts : gos = [] ∧ phase (task t) = Awaiting LeaveGuards "Foo.beforeRouteLeave" ["setup:leave"]
                   ∧ pendingLocation st2 = ref (toLocation (nav (task t)))
                   ∧ delta t = 1%Z).
  { vm_compute in Hl. injection Hl as <- <-. vm_compute in Ha. injection Ha as <- <- <-.
    split_and!; reflexivity. }
  destruct Hfacts as (-> & Hph & Hp & Hd).
  destruct (pop_guard_redirect 5 Sample.env st2 t _ _ _ Sample.login r Hph Hp Hs)
    as (st' & s & _ & Hr & _).
  rewrite Hr, Hd in Hs.
  exists st1, t0, st2, t, st', s. split_and!; [reflexivity | exact Ha | exact Hs].
Defined.

(** ** The afterEach hooks *)

Lemma sync_events_no_after_each (evs : list Event) :
  Forall sync_event evs → filter is_after_each evs = [].
Proof.
  induction 1 as [|e evs He _ IH]; [done|].
  destruct e; try done; by rewrite filter_cons_False by (exact id).
Qed.

Lemma after_each_events (hooks : list string) (to from : LocRef) (failure : option RouterError) :
  filter is_after_each (map (λ hook, EvAfterEach hook to from failure) hooks)
  = map (λ hook, EvAfterEach hook to from failure) hooks.
Proof.
  induction hooks as [|h hooks IH]; [done|].
  cbn [map]. rewrite filter_cons_True by done. by rewrite IH.
Qed.

(** X18: the afterEach hooks are called by the reaction that fulfils the
    promise of [push], and by no other: each hook once, in registration
    order, with the target, the origin and the failure the promise is
    fulfilled with (none when the navigation commits).  A reaction that
    leaves the navigation pending, or rejects the promise, calls none. *)
Theorem afterEach_iff_fulfilled (env : Env) (fuel : nat) (st : Router) (t : Task) :
  let n := nav t in
  (∀ st' o,
     advance fuel env st t = Some (st', o) →
     filter is_after_each (log st')
     = filter is_after_each (log st)
       ++ match o with
          | Settled (Resolved failure) =>
              map (λ hook, EvAfterEach hook (ref (toLocation n)) (ref (from n)) failure)
                  (afterGuards st)
          | _ => []
          end)
  ∧ (∀ s st' o,
       settle st t s = (st', o) →
       filter is_after_each (log st') = filter is_after_each (log st)
       ∧ ∀ failure, o ≠ Settled (Resolved failure)).
Proof.
  cbn zeta. split.
  - intros st' o Ha. unfold advance in Ha.
    destruct (phase t) as [stage [|g rest]|stage g rest|[f|]].
    + destruct (next_stage stage); simplify_eq; by rewrite app_nil_r.
    + simplify_eq. cbn. rewrite filter_app. done.
    + simplify_eq. by rewrite app_nil_r.
    + unfold then_handler in Ha. destruct (bool_decide _).
      * destruct (pushWithRedirect _ _ _ _ _) as [[st2 s]|] eqn:Hp; [|discriminate].
        apply pushWithRedirect_state in Hp as (k & p & evs & -> & _ & _ & Hevs & Hs).
        assert (st' = retargeted st k p evs
                ∧ ∀ failure, o ≠ Settled (Resolved failure)) as [-> Ho].
        { destruct s as [e|[t2|r]]; simplify_eq; split; try done.
          destruct Hs as [-> _]. done. }
        cbn. rewrite filter_app, (sync_events_no_after_each _ Hevs).
        destruct o as [t2|[failure|e]]; try done. by destruct (Ho failure).
      * simplify_eq. unfold triggerAfterEach. cbn. by rewrite filter_app, after_each_events.
    + unfold then_handler in Ha.
      destruct (finalizeNavigation _ _ _ _ _ _ _) as [st2 failure] eqn:Hf.
      injection Ha as <- <-. unfold triggerAfterEach. cbn [emit set_log log].
      rewrite filter_app, after_each_events.
      assert (log st2 = log st ++ handleScroll_events env (toLocation (nav t)) (from (nav t)) true
                                    (bool_decide (ref (from (nav t)) = ref START_LOCATION_NORMALIZED))
              ∧ afterGuards st2 = afterGuards st
              ∨ st2 = st) as [[Hlog Hag]| ->]; [|rewrite Hlog, Hag|done].
      { unfold finalizeNavigation in Hf. destruct (negb (bool_decide _)); [right; by simplify_eq|].
        left. injection Hf as <- _. rewrite handleScroll_emit.
        match goal with |- context [markAsReady ?s None] =>
          destruct (markAsReady_fields s None) as (_ & _ & _ & _ & _ & -> & _ & _ & -> & _) end.
        by destruct (replace_flag (nav t) || _). }
      rewrite filter_app.
      assert (filter is_after_each (handleScroll_events env (toLocation (nav t)) (from (nav t)) true
                (bool_decide (ref (from (nav t)) = ref START_LOCATION_NORMALIZED))) = []) as ->.
      { unfold handleScroll_events. by destruct (negb _ || _). }
      by rewrite app_nil_r.
  - intros s st' o Hs.
    apply settle_inv in Hs as [(-> & -> & _) | (stage & g & rest & _ & Hs)]; [done|].
    cbn zeta in Hs. destruct s as [|e].
    + destruct Hs as [-> ->]. cbn. rewrite filter_app. cbn. by rewrite app_nil_r.
    + destruct Hs as [(_ & -> & ->) | [(_ & _ & -> & ->) | (_ & _ & _ & -> & ->)]];
        try (cbn; rewrite filter_app; cbn; by rewrite app_nil_r).
      rewrite triggerError_log. cbn. rewrite !filter_app. cbn.
      split; [|done]. rewrite app_nil_r.
      assert (filter is_after_each (map (λ handler, EvErrorHandler handler e) (errorHandlers st)) = [])
        as ->; [|by rewrite app_nil_r].
      induction (errorHandlers st) as [|h hs IH]; [done|].
      cbn [map]. by rewrite filter_cons_False by (exact id).
Qed.

Lemma afterEach_iff_fulfilled_witness :
  ∃ w t st',
    run 5 Sample.env Sample.world0 (APush (RawString "/x") :: Sample.fulfil_all 0 9) = Some w
    ∧ in_flight w 0 = Some t
    ∧ advance 5 Sample.env (router w) t = Some (st', Settled (Resolved None))
    ∧ filter is_after_each (log st') = [EvAfterEach "afterEach1" 1 0 None].
Proof.
  destruct (run 5 Sample.env Sample.world0 (APush (RawString "/x") :: Sample.fulfil_all 0 9))
    as [w|] eqn:Hrun; [|vm_compute in Hrun; discriminate].
  destruct (in_flight w 0) as [t|] eqn:Hf;
    [|vm_compute in Hrun; injection Hrun as <-; vm_compute in Hf; discriminate].
  destruct (advance 5 Sample.env (router w) t) as [[st' o]|] eqn:Ha;
    [|vm_compute in Hrun; injection Hrun as <-; vm_compute in Hf; injection Hf as <-;
      vm_compute in Ha; discriminate].
  assert (Ho : o = Settled (Resolved None)).
  { vm_compute in Hrun. injection Hrun as <-. vm_compute in Hf. injection Hf as <-.
    vm_compute in Ha. by injection Ha as _ <-. }
  subst o.
  destruct (afterEach_iff_fulfilled Sample.env 5 (router w) t) as (Hadvance & _).
  exists w, t, st'. split_and!; [reflexivity | exact Hf | exact Ha |].
  rewrite (Hadvance _ _ Ha).
  vm_compute in Hrun. injection Hrun as <-. vm_compute in Hf. injection Hf as <-. reflexivity.
Defined.

(** * The in-memory history *)

Section MemoryHistoryProperties.

Import MemoryHistory.

Context {Raw L : Type}.
Context (normalizeLocation : Raw → L) (START : L).

Implicit Types (h : History L) (to : Raw) (loc : L).

Lemma splice_from (l : list L) (start : Z) :
  (0 ≤ start ≤ Z.of_nat (length l))%Z →
  splice l start None = take (Z.to_nat start) l.
Proof.
  intros H. unfold splice. rewrite decide_False by lia.
  rewrite Z.min_l by lia.
  replace (Z.to_nat (start + (Z.of_nat (length l) - start))) with (length l) by lia.
  by rewrite drop_all, app_nil_r.
Qed.

Lemma splice_one {A} (l : list A) (start : Z) :
  (0 ≤ start < Z.of_nat (length l))%Z →
  splice l start (Some 1%Z) = take (Z.to_nat start) l ++ drop (S (Z.to_nat start)) l.
Proof.
  intros H. unfold splice. rewrite decide_False by lia.
  rewrite Z.min_l by lia.
  replace (Z.to_nat (start + Z.min (Z.max 1 0) (Z.of_nat (length l) - start)))
    with (S (Z.to_nat start)) by lia.
  reflexivity.
Qed.

Lemma setLocation_spec h loc :
  (0 ≤ position h + 1 ≤ Z.of_nat (length (queue h)))%Z →
  queue (setLocation h loc) = take (Z.to_nat (position h + 1)) (queue h) ++ [loc]
  ∧ position (setLocation h loc) = (position h + 1)%Z.
Proof.
  intros H. unfold setLocation.
  destruct (decide (position h + 1 = Z.of_nat (length (queue h)))%Z) as [Heq|Hne]; cbn.
  - split; [|done]. rewrite take_ge; [done | lia].
  - split; [|done]. rewrite splice_from; [done | lia].
Qed.

Lemma push_spec h to :
  in_range h →
  queue (push normalizeLocation h to)
  = take (Z.to_nat (position h + 1)) (queue h) ++ [normalizeLocation to]
  ∧ position (push normalizeLocation h to) = (position h + 1)%Z
  ∧ listeners (push normalizeLocation h to) = listeners h
  ∧ notified (push normalizeLocation h to) = notified h.
Proof.
  intros H. unfold in_range in H. unfold push.
  destruct (setLocation_spec h (normalizeLocation to)) as [Hq Hp]; [lia|].
  split; [done|]. split; [done|].
  unfold setLocation. by destruct (decide _).
Qed.

Lemma replace_spec h to :
  in_range h →
  queue (replace normalizeLocation h to)
  = take (Z.to_nat (position h)) (queue h) ++ [normalizeLocation to]
  ∧ position (replace normalizeLocation h to) = position h
  ∧ listeners (replace normalizeLocation h to) = listeners h
  ∧ notified (replace normalizeLocation h to) = notified h.
Proof.
  intros H. unfold in_range in H. unfold replace.
  set (h1 := {| listeners := listeners h; queue := splice (queue h) (position h) (Some 1%Z);
                position := (position h - 1)%Z; notified := notified h |}).
  assert (Hq1 : queue h1 = take (Z.to_nat (position h)) (queue h)
                           ++ drop (S (Z.to_nat (position h))) (queue h))
    by (cbn; by rewrite splice_one).
  assert (Hlen : length (queue h1) = length (queue h) - 1).
  { rewrite Hq1, length_app, length_take, length_drop. lia. }
  destruct (setLocation_spec h1 (normalizeLocation to)) as [Hq Hp]; [cbn [position h1]; lia|].
  split.
  - rewrite Hq, Hq1. cbn [position h1].
    replace (position h - 1 + 1)%Z with (position h) by lia.
    rewrite take_app_le by (rewrite length_take; lia).
    rewrite take_take. by rewrite Nat.min_id.
  - split; [rewrite Hp; cbn; lia|].
    unfold setLocation. by destruct (decide _).
Qed.

Lemma at_index_last (l : list L) (x : L) :
  at_index (l ++ [x]) (Z.of_nat (length l)) = Some x.
Proof.
  unfold at_index. rewrite decide_False by lia. rewrite Nat2Z.id.
  by rewrite lookup_app_r, Nat.sub_diag.
Qed.

Lemma at_index_app_l (l l' : list L) (i : Z) :
  (0 ≤ i < Z.of_nat (length l))%Z → at_index (l ++ l') i = at_index l i.
Proof.
  intros H. unfold at_index. destruct (decide (i < 0)%Z); [lia|].
  apply lookup_app_l. lia.
Qed.

Lemma at_index_take (l : list L) (n : nat) (i : Z) :
  (0 ≤ i < Z.of_nat n)%Z → at_index (take n l) i = at_index l i.
Proof.
  intros H. unfold at_index. destruct (decide (i < 0)%Z); [lia|].
  apply lookup_take_lt. lia.
Qed.


Lemma go_spec h (d : Z) (b : bool) :
  queue (go h d b) = queue h
  ∧ listeners (go h d b) = listeners h
  ∧ position (go h d b)
    = Z.max 0 (Z.min (position h + d) (Z.of_nat (length (queue h)) - 1)).
Proof. unfold go, triggerListeners. destruct b; done. Qed.

Lemma apply_in_range h (op : Op (Raw:=Raw)) :
  in_range h → in_range (apply normalizeLocation h op).
Proof.
  intros H. assert (H' := H). unfold in_range in H'.
  destruct op as [to|to|d b|b|b|cb|cb|]; cbn [apply].
  - destruct (push_spec h to H) as (Hq & Hp & _). unfold in_range.
    rewrite Hq, Hp, length_app, length_take. cbn. lia.
  - destruct (replace_spec h to H) as (Hq & Hp & _). unfold in_range.
    rewrite Hq, Hp, length_app, length_take. cbn. lia.
  - destruct (go_spec h d b) as (Hq & _ & Hp). unfold in_range. rewrite Hq, Hp. lia.
  - destruct (go_spec h (-1) b) as (Hq & _ & Hp). unfold in_range, go_back.
    rewrite Hq, Hp. lia.
  - destruct (go_spec h 1 b) as (Hq & _ & Hp). unfold in_range, go_forward.
    rewrite Hq, Hp. lia.
  - exact H.
  - unfold unlisten. by destruct (decide _).
  - exact H.
Qed.


Lemma foldl_in_range (ops : list (Op (Raw:=Raw))) :
  in_range (foldl (apply normalizeLocation) (createMemoryHistory START) ops).
Proof.
  assert (H0 : in_range (createMemoryHistory START)) by (unfold in_range; cbn; lia).
  revert H0. generalize (createMemoryHistory START).
  induction ops as [|op ops IH]; intros h H0; [done|].
  cbn [foldl]. apply IH. by apply apply_in_range.
Qed.


Lemma push_location h to :
  in_range h → location (push normalizeLocation h to) = Some (normalizeLocation to).
Proof.
  intros H. assert (H' := H). unfold in_range in H'.
  destruct (push_spec h to H) as (Hq & Hp & _).
  unfold location. rewrite Hq, Hp.
  replace (position h + 1)%Z with (Z.of_nat (length (take (Z.to_nat (position h + 1)) (queue h))))
    at 2 by (rewrite length_take; lia).
  apply at_index_last.
Qed.

Lemma replace_location h to :
  in_range h → location (replace normalizeLocation h to) = Some (normalizeLocation to).
Proof.
  intros H. assert (H' := H). unfold in_range in H'.
  destruct (replace_spec h to H) as (Hq & Hp & _).
  unfold location. rewrite Hq, Hp.
  replace (position h) with (Z.of_nat (length (take (Z.to_nat (position h)) (queue h))))
    at 2 by (rewrite length_take; lia).
  apply at_index_last.
Qed.

(** X2: [push] keeps the entries up to the current one, drops the entries
    after it and appends the new location; [replace] keeps the entries before
    the current one, drops the current one and those after it, and appends.
    Either way the new location is the current one and the last of the queue;
    [push] moves the position by one and [replace] leaves it. *)
Theorem memory_push_replace h to :
  in_range h →
  let hp := push normalizeLocation h to in
  let hr := replace normalizeLocation h to in
  queue hp = take (Z.to_nat (position h + 1)) (queue h) ++ [normalizeLocation to]
  ∧ position hp = (position h + 1)%Z
  ∧ location hp = Some (normalizeLocation to)
  ∧ position hp = (Z.of_nat (length (queue hp)) - 1)%Z
  ∧ queue hr = take (Z.to_nat (position h)) (queue h) ++ [normalizeLocation to]
  ∧ position hr = position h
  ∧ location hr = Some (normalizeLocation to)
  ∧ position hr = (Z.of_nat (length (queue hr)) - 1)%Z.
Proof.
  intros H. cbn zeta. assert (H' := H). unfold in_range in H'.
  destruct (push_spec h to H) as (Hq & Hp & _).
  destruct (replace_spec h to H) as (Hq' & Hp' & _).
  split_and!; try done.
  - by apply push_location.
  - rewrite Hq, Hp, length_app, length_take. cbn. lia.
  - by apply replace_location.
  - rewrite Hq', Hp', length_app, length_take. cbn. lia.
Qed.


(** X4: after [push], going back one entry shows the location that was
    current before, and going forward again shows the pushed one.  [replace]
    does not touch the entries behind: when there is one, going back after
    it shows what going back before it would have shown. *)
Theorem memory_push_then_back h to (b b' : bool) :
  in_range h →
  location (go (push normalizeLocation h to) (-1) b) = location h
  ∧ location (go (go (push normalizeLocation h to) (-1) b) 1 b') = Some (normalizeLocation to)
  ∧ ((0 < position h)%Z →
     location (go (replace normalizeLocation h to) (-1) b) = location (go h (-1) b)).
Proof.
  intros H. assert (H' := H). unfold in_range in H'.
  destruct (push_spec h to H) as (Hq & Hp & _).
  destruct (replace_spec h to H) as (Hq' & Hp' & _).
  assert (Hloc := push_location h to H).
  set (hp := push normalizeLocation h to) in *.
  set (hr := replace normalizeLocation h to) in *.
  destruct (go_spec hp (-1) b) as (Hqb & _ & Hpb).
  destruct (go_spec (go hp (-1) b) 1 b') as (Hqf & _ & Hpf).
  assert (Hlen : length (queue hp) = S (Z.to_nat (position h + 1)))
    by (rewrite Hq, length_app, length_take; cbn; lia).
  assert (Hpb' : position (go hp (-1) b) = position h) by (rewrite Hpb, Hp; lia).
  split_and!.
  - unfold location. rewrite Hqb, Hpb', Hq.
    rewrite at_index_app_l by (rewrite length_take; lia). apply at_index_take. lia.
  - unfold location in *. rewrite Hqf, Hqb, Hpf, Hqb, Hpb', <- Hloc. f_equal. lia.
  - intros Hnz.
    destruct (go_spec hr (-1) b) as (Hq1 & _ & Hp1).
    destruct (go_spec h (-1) b) as (Hq2 & _ & Hp2).
    unfold location. rewrite Hq1, Hp1, Hq2, Hp2, Hq', Hp', length_app, length_take.
    cbn [length].
    replace (Z.max 0 (Z.min (position h + -1)
               (Z.of_nat (Z.to_nat (position h) `min` length (queue h) + 1) - 1)))
      with (position h - 1)%Z by lia.
    replace (Z.max 0 (Z.min (position h + -1) (Z.of_nat (length (queue h)) - 1)))
      with (position h - 1)%Z by lia.
    rewrite at_index_app_l by (rewrite length_take; lia). apply at_index_take. lia.
Qed.




Lemma index_of_absent_nat (l : list nat) cb : cb ∉ l → index_of l cb = (-1)%Z.
Proof.
  induction l as [|y l IH]; intros Hn; [done|]. cbn.
  apply not_elem_of_cons in Hn as [Hne Hn].
  rewrite decide_False by done. rewrite (IH Hn). done.
Qed.

Lemma index_of_first (l1 l2 : list nat) cb :
  cb ∉ l1 → index_of (l1 ++ cb :: l2) cb = Z.of_nat (length l1).
Proof.
  induction l1 as [|y l1 IH]; intros Hn; cbn.
  - by rewrite decide_True.
  - apply not_elem_of_cons in Hn as [Hne Hn].
    rewrite decide_False by done. rewrite (IH Hn).
    rewrite decide_False by lia. lia.
Qed.

(** X7: the function returned by [listen] removes the oldest registration of
    its callback and nothing else; it does nothing when the callback is not
    registered, and right after [listen] of a callback not yet registered it
    restores the history.  After [destroy] a triggering [go] notifies
    nobody. *)
Theorem memory_unlisten h cb :
  (cb ∉ listeners h → unlisten h cb = h)
  ∧ (∀ l1 l2, listeners h = l1 ++ cb :: l2 → cb ∉ l1 →
       listeners (unlisten h cb) = l1 ++ l2
       ∧ queue (unlisten h cb) = queue h ∧ position (unlisten h cb) = position h)
  ∧ (cb ∉ listeners h → unlisten (listen h cb) cb = h)
  ∧ (∀ d b, notified (go (destroy h) d b) = notified h).
Proof.
  split_and!.
  - intros Hn. unfold unlisten. rewrite (index_of_absent_nat _ _ Hn). by rewrite decide_False by lia.
  - intros l1 l2 Hl Hn. unfold unlisten. rewrite Hl, (index_of_first _ _ _ Hn).
    rewrite decide_True by lia. cbn [listeners queue position]. split_and!; [|done..].
    rewrite splice_one by (rewrite length_app; cbn; lia).
    rewrite Nat2Z.id, take_app_length.
    replace (S (length l1)) with (length l1 + 1) by lia.
    rewrite drop_app_add. done.
  - intros Hn. unfold unlisten, listen. cbn [listeners].
    replace (listeners h ++ [cb]) with (listeners h ++ cb :: []) by done.
    rewrite (index_of_first _ _ _ Hn). rewrite decide_True by lia.
    rewrite splice_one by (rewrite length_app; cbn; lia).
    rewrite Nat2Z.id, take_app_length.
    replace (S (length (listeners h))) with (length (listeners h) + 1) by lia.
    rewrite drop_app_add. cbn. rewrite app_nil_r. by destruct h.
  - intros d b. unfold go, destroy, triggerListeners. cbn. destruct b; cbn; [|done].
    by rewrite app_nil_r.
Qed.

End MemoryHistoryProperties.

Lemma memory_push_replace_witness :
  MemoryHistory.location (MemoryHistory.push id (MemoryHistory.createMemoryHistory "/") "/a")
  = Some "/a"
  ∧ MemoryHistory.queue (MemoryHistory.replace id (MemoryHistory.createMemoryHistory "/") "/b")
    = ["/b"].
Proof.
  destruct (memory_push_replace id (MemoryHistory.createMemoryHistory "/") "/a")
    as (_ & _ & Hlocation & _).
  { split; vm_compute; congruence. }
  split; [exact Hlocation | reflexivity].
Defined.


Lemma memory_push_then_back_witness :
  MemoryHistory.location
    (MemoryHistory.go (MemoryHistory.push id (MemoryHistory.createMemoryHistory "/") "/a")
       (-1) true)
  = Some "/".
Proof.
  destruct (memory_push_then_back id (MemoryHistory.createMemoryHistory "/") "/a" true true)
    as (Hback & _).
  { split; vm_compute; congruence. }
  exact Hback.
Defined.



Lemma memory_unlisten_witness :
  MemoryHistory.listeners
    (MemoryHistory.unlisten
       (MemoryHistory.listen (MemoryHistory.listen (MemoryHistory.createMemoryHistory "/") 1) 2)
       1)
  = [2].
Proof.
  destruct (memory_unlisten
              (MemoryHistory.listen
                 (MemoryHistory.listen (MemoryHistory.createMemoryHistory "/") 1) 2) 1)
    as (_ & Hfirst & _).
  destruct (Hfirst [] [2]) as (Hl & _); [reflexivity | apply not_elem_of_nil | exact Hl].
Defined.

(** ** The router on the in-memory history *)

(** X17: let the calls the router makes on its history be made on an
    in-memory history created with it.  Once a navigation has committed, the
    location of that history is the router's current route, normalized. *)
Theorem memory_history_follows_router {L : Type} (normalizeLocation : RouteLocation → L)
    (START : L) (env : Env) (fuel : nat) (st : Router) (acts : list Action) (w' : World) :
  fresh st →
  run fuel env {| router := st; calls := [] |} acts = Some w' →
  routerHistory (router w') ≠ [] →
  MemoryHistory.location
    (foldl (MemoryHistory.apply normalizeLocation) (MemoryHistory.createMemoryHistory START)
       (map history_op (routerHistory (router w'))))
  = Some (normalizeLocation (currentRoute (router w'))).
Proof.
  intros Hfresh Hrun Hne.
  destruct (run_coherent env fuel acts _ _ (fresh_coherent st Hfresh) Hrun)
    as ((_ & _ & -> & _) & _).
  destruct (routerHistory (router w')) as [|c h _] using rev_ind; [done|].
  rewrite history_location_snoc, map_app, foldl_app. cbn [map foldl].
  set (h0 := foldl _ _ _).
  assert (Hin : MemoryHistory.in_range h0).
  { unfold h0. apply foldl_in_range. }
  destruct c as [to data|to data]; cbn [history_op MemoryHistory.apply call_location].
  - by apply replace_location.
  - by apply push_location.
Qed.

Lemma memory_history_follows_router_witness :
  ∃ w',
    run 5 Sample.env Sample.world0 (APush (RawString "/x") :: Sample.fulfil_all 0 12) = Some w'
    ∧ MemoryHistory.location
        (foldl (MemoryHistory.apply fullPath) (MemoryHistory.createMemoryHistory "/")
           (map history_op (routerHistory (router w'))))
      = Some "/x".
Proof.
  destruct (run 5 Sample.env Sample.world0 (APush (RawString "/x") :: Sample.fulfil_all 0 12))
    as [w'|] eqn:Hrun; [|vm_compute in Hrun; discriminate].
  exists w'. split; [reflexivity|].
  rewrite (memory_history_follows_router fullPath "/" Sample.env 5 Sample.router0 _ w'
             fresh_sample Hrun).
  - vm_compute in Hrun. injection Hrun as <-. reflexivity.
  - vm_compute in Hrun. injection Hrun as <-. discriminate.
Defined.
